(** * FileCompress Pro backend: batch orchestration and progress channel

    A shallow embedding of the job orchestration code of the backend:
    - [utils/fileUtils.js]: [getFileTypeCategory], [getFileSize],
      [calculateCompressionRatio], [generateUniqueFilename];
    - [utils/websocketUtils.js]: [setupWebSocket] and the [emit*] helpers;
    - [services/compressionService.js]: the four per-category compressors,
      [compressBatch] and [createArchive];
    - [routes/compress.js]: the totals of the [POST /batch] handler and
      the [POST /job/:jobId] handler;
    - [utils/fileUtils.js], further: [isFileTypeSupported],
      [getSafeFilename], [cleanupOldFiles] and [cleanupFile];
    - [middleware/errorHandler.js]: the rules of the handler;
    - [routes/upload.js]: the file filter of multer.

    Conventions of the embedding.
    - JavaScript numbers are idealised: byte counts are naturals ([N]),
      percentages are integers ([Z]) and the intermediate quotients of
      [Math.round((a / b) * c)] are exact rationals ([Q]), not IEEE doubles.
    - Everything outside the repository (the file system, sharp, ffmpeg,
      archiver, the clock and the uuid generator) is an abstract world with
      its own state; the code is written in a small monad that threads that
      state, accumulates the events handed to socket.io and propagates
      thrown errors.
    - Timestamps of payloads and [console] output are not modelled. *)

From Stdlib Require Import ZArith QArith Qround Lia Ascii String.
From stdpp Require Import base decidable option list strings pretty gmap sets.

Local Open Scope Z_scope.

(** ** Numbers *)

(** [Math.round]: the nearest integer, ties towards [+∞]. *)
Definition Math_round (x : Q) : Z := Qfloor (x + (1 # 2))%Q.

(** JavaScript division of two integers, as an exact rational. *)
Definition js_div (a b : Z) : Q := (inject_Z a / inject_Z b)%Q.

(** [utils/fileUtils.js], [calculateCompressionRatio]. *)
Definition calculateCompressionRatio (originalSize compressedSize : Z) : Z :=
  if originalSize =? 0 then 0
  else Math_round (js_div (originalSize - compressedSize) originalSize * inject_Z 100)%Q.

(** ** Strings and paths

    Node's [path] module (POSIX flavour) and the string methods the code
    calls.  File names are taken to be ASCII: [toLowerCase] maps [A-Z] to
    [a-z] and leaves every other byte alone. *)

Definition chars (s : string) : list ascii := list_ascii_of_string s.
Definition unchars (l : list ascii) : string := string_of_list_ascii l.

Definition lower_ascii (c : ascii) : ascii :=
  let n := N_of_ascii c in
  if ((65 <=? n) && (n <=? 90))%N then ascii_of_N (n + 32) else c.

Definition toLowerCase (s : string) : string := unchars (map lower_ascii (chars s)).

Definition is_slash (c : ascii) : bool := bool_decide (c = "/"%char).
Definition is_dot (c : ascii) : bool := bool_decide (c = "."%char).

Fixpoint take_until (p : ascii -> bool) (l : list ascii) : list ascii :=
  match l with
  | [] => []
  | c :: l' => if p c then [] else c :: take_until p l'
  end.

Fixpoint drop_until (p : ascii -> bool) (l : list ascii) : list ascii :=
  match l with
  | [] => []
  | c :: l' => if p c then c :: l' else drop_until p l'
  end.

Fixpoint drop_while (p : ascii -> bool) (l : list ascii) : list ascii :=
  match l with
  | [] => []
  | c :: l' => if p c then drop_while p l' else c :: l'
  end.

(** The last component of a path, reversed: trailing separators are skipped
    and the scan stops at the separator before the component. *)
Definition last_part_rev (p : string) : list ascii :=
  take_until is_slash (drop_while is_slash (rev (chars p))).

(** [path.basename(p)]. *)
Definition basename (p : string) : string := unchars (rev (last_part_rev p)).

(** [path.extname(p)]: from the last dot of the last component to its end;
    empty when there is no dot, when the dot opens the component, and when
    the component is [".."]. *)
Definition extname (p : string) : string :=
  let part := last_part_rev p in
  let after := take_until is_dot part in
  match drop_until is_dot part with
  | [] => ""
  | _dot :: before =>
      match before, after with
      | [], _ => ""
      | [d], [] => if is_dot d then "" else "."
      | _, _ => unchars ("."%char :: rev after)
      end
  end.

Fixpoint strip_prefix (pre l : list ascii) : option (list ascii) :=
  match pre, l with
  | [], _ => Some l
  | a :: pre', b :: l' => if bool_decide (a = b) then strip_prefix pre' l' else None
  | _ :: _, [] => None
  end.

(** [path.basename(p, ext)]: the extension is removed when the component
    ends with it and is not the extension alone. *)
Definition basename_ext (p ext : string) : string :=
  let part := last_part_rev p in
  match chars ext with
  | [] => unchars (rev part)
  | e =>
      match strip_prefix (rev e) part with
      | Some (c :: stem) => unchars (rev (c :: stem))
      | _ => unchars (rev part)
      end
  end.

(** [path.join(dir, name)] for a normalised [dir] and a plain file [name],
    which is how every call of the service uses it. *)
Definition path_join (dir name : string) : string := dir +:+ "/" +:+ name.

(** [s.replace(/\.[^/.]+$/, "." + format)]: the text from the last dot on
    is replaced when it is a dot followed by at least one character and no
    separator. *)
Definition replace_extension (s format : string) : string :=
  let r := rev (chars s) in
  let after := take_until is_dot r in
  match drop_until is_dot r, after with
  | _dot :: before, _ :: _ =>
      if existsb is_slash after then s
      else unchars (rev before) +:+ "." +:+ format
  | _, _ => s
  end.

(** [s.slice(0, n)]. *)
Definition slice0 (n : nat) (s : string) : string := unchars (take n (chars s)).

(** ** [utils/fileUtils.js] *)

Definition SUPPORTED_TYPES : list (string * list string) :=
  [ ("images", [".jpg"; ".jpeg"; ".png"; ".webp"; ".tiff"; ".tif"; ".bmp"]);
    ("videos", [".mp4"; ".avi"; ".mov"; ".wmv"; ".flv"; ".webm"; ".mkv"; ".m4v"]);
    ("audio", [".mp3"; ".wav"; ".flac"; ".aac"; ".ogg"; ".m4a"; ".wma"]);
    ("documents", [".pdf"]) ].

Definition includes (l : list string) (x : string) : bool := bool_decide (x ∈ l).

Definition getAllSupportedExtensions : list string :=
  concat (map snd SUPPORTED_TYPES).

Definition isFileTypeSupported (filename : string) : bool :=
  includes getAllSupportedExtensions (toLowerCase (extname filename)).

Fixpoint find_category (ext : string) (table : list (string * list string)) : string :=
  match table with
  | [] => "unknown"
  | (category, extensions) :: rest =>
      if includes extensions ext then category else find_category ext rest
  end.

Definition getFileTypeCategory (filename : string) : string :=
  let ext := toLowerCase (extname filename) in
  find_category ext SUPPORTED_TYPES.

(** ** Results, responses and socket.io packets *)

(** What a compressor resolves with.  [note] is set by [compressPDF] only;
    [originalFilename] is added by [compressBatch]. *)
Record CompressionResult := {
  originalPath : string;
  compressedPath : string;
  originalSize : N;
  compressedSize : N;
  compressionRatio : Z;
  format : string;
  note : option string;
  originalFilename : option string
}.

Definition set_originalFilename (r : CompressionResult) (name : string) : CompressionResult :=
  {| originalPath := originalPath r; compressedPath := compressedPath r;
     originalSize := originalSize r; compressedSize := compressedSize r;
     compressionRatio := compressionRatio r; format := format r;
     note := note r; originalFilename := Some name |}.

(** An element of the [results] array of [compressBatch]: a compressor
    result, or the object [{originalFilename, error, failed: true}]. *)
Inductive BatchEntry :=
| Compressed (result : CompressionResult)
| Failure (filename error : string).

(** [r.failed] *)
Definition failed (r : BatchEntry) : bool :=
  match r with Failure _ _ => true | Compressed _ => false end.

(** The object returned by [compressBatch], without its constant field
    [type: 'batch']; [archive] is present on the archiving branch only. *)
Record BatchResult := {
  files : list BatchEntry;
  archive : option string;
  totalFiles : nat;
  successfulFiles : nat;
  failedFiles : nat
}.

(** [response.summary] of the batch route, without the human-readable sizes. *)
Record Summary := {
  sum_totalFiles : nat;
  sum_successfulFiles : nat;
  sum_failedFiles : nat;
  totalOriginalSize : N;
  totalCompressedSize : N;
  totalSaved : Z;
  overallRatio : Z
}.

(** An element of [response.files]: [success] is the constructor. *)
Inductive ResponseFile :=
| FileSuccess (filename : option string) (compressedPath : string)
              (originalSize compressedSize : N) (compressionRatio : Z)
| FileFailure (filename error : string).

(** The body of the reply, without the constants [success: true] and
    [type: 'batch'] and without [completedAt]. *)
Record BatchResponse := {
  resp_jobId : string;
  summary : Summary;
  resp_files : list ResponseFile;
  archivePath : option string
}.

(** The fields a helper of [websocketUtils.js] adds to [jobId] and
    [timestamp] in the payload. *)
Inductive Payload :=
| ProgressPayload (progress : Z) (message : string)
| StatusPayload (status message : string)
| CompletedPayload (response : BatchResponse)
| ErrorPayload (error : string).

(** One call [io.to(room).emit(event, payload)]. *)
Record Emit := { room : string; event : string; payload : Payload }.

(** The socket.io server handle passed around as [io]; [None] is [null]. *)
Inductive Io := socket_io.

(** ** Options *)

Record ImageOptions := {
  img_quality : option Z;
  img_format : option string;
  img_width : option Z;
  img_height : option Z;
  img_progressive : option bool
}.

Record VideoOptions := {
  vid_quality : option string;
  vid_format : option string;
  vid_maxWidth : option Z;
  vid_maxHeight : option Z
}.

Record AudioOptions := {
  aud_quality : option string;
  aud_format : option string
}.

Record BatchOptions := {
  image : ImageOptions;
  video : VideoOptions;
  audio : AudioOptions;
  createArchive_requested : bool    (* [options.createArchive] *)
}.

(** An element of the [files] array of a batch request, with the two fields
    the upload route gives it; both are strings. *)
Record FileRef := { filename : string; path : string }.

(** Truthiness of the values the code tests. *)
Definition truthy_string (s : option string) : bool :=
  match s with Some x => negb (String.eqb x "") | None => false end.
Definition truthy_number (n : option Z) : bool :=
  match n with Some x => negb (x =? 0) | None => false end.
Definition truthy_io (io : option Io) : bool :=
  match io with Some _ => true | None => false end.

(** ** The outside world *)

Inductive Outcome (A : Type) :=
| Returned (a : A)
| Thrown (message : string).
Arguments Returned {A} a.
Arguments Thrown {A} message.

(** The calls made on a sharp pipeline, in the order [compressImage] makes
    them. *)
Inductive SharpStep :=
| SharpOpen (input : string)
| SharpResize (width height : option Z)
| SharpJpeg (quality : Z) (progressive : bool)
| SharpPng (quality : Z) (progressive : bool)
| SharpWebp (quality : Z)
| SharpToFile (output : string).

Record FfmpegCommand := {
  ff_input : string;
  ff_videoCodec : option string;
  ff_audioCodec : string;
  ff_videoBitrate : option string;
  ff_audioBitrate : string;
  ff_size : option string;
  ff_format : string;
  ff_output : string
}.

(** A run of an ffmpeg command: building or starting it throws, or it fires
    ['progress'] events (their [percent] fields) and then ['error'] or
    ['end'].  A command that never settles is outside the model: every call
    of a collaborator comes back. *)
Inductive FfmpegRun :=
| FfmpegThrows (message : string)
| FfmpegError (percents : list Q) (message : string)
| FfmpegEnd (percents : list Q).

(** The collaborators, over a world state [W]. *)
Record External (W : Type) := {
  fs_stat : string -> W -> W * Outcome N;
  fs_copy : string -> string -> W -> W * Outcome unit;
  fs_access : string -> W -> W * Outcome unit;
  fs_ensureDir : string -> W -> W * Outcome unit;
  sharp : SharpStep -> W -> W * Outcome unit;
  ffmpeg : FfmpegCommand -> W -> W * FfmpegRun;
  archiver : string -> list (string * string) -> W -> W * Outcome unit;
  Date_now : W -> W * N;
  uuidv4 : W -> W * string
}.
Arguments fs_stat {W}.
Arguments fs_copy {W}.
Arguments fs_access {W}.
Arguments fs_ensureDir {W}.
Arguments sharp {W}.
Arguments ffmpeg {W}.
Arguments archiver {W}.
Arguments Date_now {W}.
Arguments uuidv4 {W}.

(** ** The monad of the service code

    A computation runs from a world state and yields the new world state,
    the packets it handed to socket.io (oldest first) and its outcome.
    Packets emitted before a throw stay emitted. *)
Definition M (W A : Type) : Type := W -> W * list Emit * Outcome A.

Definition ret {W A} (a : A) : M W A := fun w => (w, [], Returned a).

Definition throw {W A} (message : string) : M W A := fun w => (w, [], Thrown message).

Definition bind {W A B} (m : M W A) (k : A -> M W B) : M W B :=
  fun w =>
    match m w with
    | (w1, out1, Returned a) =>
        match k a w1 with
        | (w2, out2, r) => (w2, out1 ++ out2, r)
        end
    | (w1, out1, Thrown e) => (w1, out1, Thrown e)
    end.

(** [try { body } catch (error) { handler(error.message) }] *)
Definition try_catch {W A} (body : M W A) (handler : string -> M W A) : M W A :=
  fun w =>
    match body w with
    | (w1, out1, Returned a) => (w1, out1, Returned a)
    | (w1, out1, Thrown e) =>
        match handler e w1 with
        | (w2, out2, r) => (w2, out1 ++ out2, r)
        end
    end.

(** A call of a collaborator that may throw. *)
Definition call {W A} (f : W -> W * Outcome A) : M W A :=
  fun w => match f w with (w1, r) => (w1, [], r) end.

(** A call of a collaborator that cannot throw. *)
Definition ask {W A} (f : W -> W * A) : M W A :=
  fun w => match f w with (w1, a) => (w1, [], Returned a) end.

(** [io.to(room).emit(event, payload)] *)
Definition io_to_emit {W} (room event : string) (payload : Payload) : M W unit :=
  fun w => (w, [ {| room := room; event := event; payload := payload |} ], Returned tt).

(** [if (c) { m }] *)
Definition when {W} (c : bool) (m : M W unit) : M W unit :=
  if c then m else ret tt.

Declare Scope js_scope.
Delimit Scope js_scope with js.
Notation "x <- c1 ;; c2" := (bind c1 (fun x => c2))
  (at level 100, c1 at next level, right associativity) : js_scope.
Notation "c1 ;; c2" := (bind c1 (fun _ => c2))
  (at level 100, right associativity) : js_scope.
Local Open Scope js_scope.

(** Projections of a run. *)
Definition world_of {W A} (r : W * list Emit * Outcome A) : W := r.1.1.
Definition emitted {W A} (r : W * list Emit * Outcome A) : list Emit := r.1.2.
Definition outcome {W A} (r : W * list Emit * Outcome A) : Outcome A := r.2.

(** ** [utils/websocketUtils.js]: the emit helpers *)

Section Service.
Context {W : Type} (ext : External W).

Definition emitProgress (io : option Io) (jobId : option string)
    (progressData : Z * string) : M W unit :=
  if negb (truthy_io io) || negb (truthy_string jobId) then ret tt
  else io_to_emit (default "" jobId) "progress"
         (ProgressPayload progressData.1 progressData.2).

Definition emitCompletion (io : option Io) (jobId : option string)
    (completionData : BatchResponse) : M W unit :=
  if negb (truthy_io io) || negb (truthy_string jobId) then ret tt
  else io_to_emit (default "" jobId) "completed" (CompletedPayload completionData).

Definition emitError (io : option Io) (jobId : option string)
    (errorData : string) : M W unit :=
  if negb (truthy_io io) || negb (truthy_string jobId) then ret tt
  else io_to_emit (default "" jobId) "error" (ErrorPayload errorData).

Definition emitStatus (io : option Io) (jobId : option string)
    (status message : string) : M W unit :=
  if negb (truthy_io io) || negb (truthy_string jobId) then ret tt
  else io_to_emit (default "" jobId) "status" (StatusPayload status message).

(** ** [utils/fileUtils.js]: the functions that touch the world *)

Definition generateJobId : M W string := ask (uuidv4 ext).

Definition generateUniqueFilename (originalName suffix : string) : M W string :=
  let ext_ := extname originalName in
  let baseName := basename_ext originalName ext_ in
  timestamp <- ask (Date_now ext) ;;
  uuid <- ask (uuidv4 ext) ;;
  let uniqueId := slice0 8 uuid in
  ret (baseName +:+ suffix +:+ "_" +:+ pretty timestamp +:+ "_" +:+ uniqueId +:+ ext_).

Definition getFileSize (filePath : string) : M W N :=
  try_catch
    (size <- call (fs_stat ext filePath) ;; ret size)
    (fun _error => ret 0%N).

Definition validateFileExists (filePath : string) : M W bool :=
  try_catch
    (call (fs_access ext filePath) ;; ret true)
    (fun _error => ret false).

(** ** [services/compressionService.js] *)

Definition compressImage (inputPath outputDir : string) (options : ImageOptions)
    (io : option Io) (jobId : option string) : M W CompressionResult :=
  try_catch
    (let quality := default 80 (img_quality options) in
     let format := img_format options in
     let width := img_width options in
     let height := img_height options in
     let progressive := default true (img_progressive options) in
     when (truthy_io io && truthy_string jobId)
       (emitStatus io jobId "processing" "Starting image compression...") ;;
     let filename := basename inputPath in
     let ext_ := toLowerCase (extname filename) in
     let outputFormat :=
       if truthy_string format then default "" format
       else if String.eqb ext_ ".png" then "png" else "jpeg" in
     outputFilename <- generateUniqueFilename filename "_compressed" ;;
     let outputPath := path_join outputDir outputFilename in
     call (sharp ext (SharpOpen inputPath)) ;;
     (if truthy_number width || truthy_number height then
        call (sharp ext (SharpResize width height)) ;;
        when (truthy_io io && truthy_string jobId)
          (emitProgress io jobId (30, "Resizing image..."))
      else ret tt) ;;
     (if String.eqb outputFormat "jpeg" then
        call (sharp ext (SharpJpeg quality progressive))
      else if String.eqb outputFormat "png" then
        call (sharp ext (SharpPng quality progressive))
      else if String.eqb outputFormat "webp" then
        call (sharp ext (SharpWebp quality))
      else ret tt) ;;
     when (truthy_io io && truthy_string jobId)
       (emitProgress io jobId (60, "Applying compression...")) ;;
     call (sharp ext (SharpToFile outputPath)) ;;
     when (truthy_io io && truthy_string jobId)
       (emitProgress io jobId (90, "Finalizing...")) ;;
     originalSize <- getFileSize inputPath ;;
     compressedSize <- getFileSize outputPath ;;
     let compressionRatio :=
       calculateCompressionRatio (Z.of_N originalSize) (Z.of_N compressedSize) in
     let result :=
       {| originalPath := inputPath; compressedPath := outputPath;
          originalSize := originalSize; compressedSize := compressedSize;
          compressionRatio := compressionRatio; format := outputFormat;
          note := None; originalFilename := None |} in
     when (truthy_io io && truthy_string jobId)
       (emitProgress io jobId (100, "Image compression completed!")) ;;
     ret result)
    (fun error => throw ("Image compression failed: " +:+ error)).

(** The ['progress'] handler of the ffmpeg commands, run over the events of
    one command; [label] is ["video"] or ["audio"]. *)
Fixpoint on_progress (label : string) (io : option Io) (jobId : option string)
    (percents : list Q) : M W unit :=
  match percents with
  | [] => ret tt
  | p :: rest =>
      (if truthy_io io && truthy_string jobId && negb (Qeq_bool p 0) then
         let percent := Math_round p in
         emitProgress io jobId
           (percent, "Processing " +:+ label +:+ "... " +:+ pretty percent +:+ "%")
       else ret tt) ;;
      on_progress label io jobId rest
  end.

(** The ['end'] handler shared by the two ffmpeg compressors. *)
Definition on_end (label : string) (inputPath outputPath format : string)
    (io : option Io) (jobId : option string) : M W CompressionResult :=
  originalSize <- getFileSize inputPath ;;
  compressedSize <- getFileSize outputPath ;;
  let compressionRatio :=
    calculateCompressionRatio (Z.of_N originalSize) (Z.of_N compressedSize) in
  let result :=
    {| originalPath := inputPath; compressedPath := outputPath;
       originalSize := originalSize; compressedSize := compressedSize;
       compressionRatio := compressionRatio; format := format;
       note := None; originalFilename := None |} in
  when (truthy_io io && truthy_string jobId)
    (emitProgress io jobId (100, label +:+ " compression completed!")) ;;
  ret result.

Definition compressVideo (inputPath outputDir : string) (options : VideoOptions)
    (io : option Io) (jobId : option string) : M W CompressionResult :=
  let quality := default "medium" (vid_quality options) in
  let format := default "mp4" (vid_format options) in
  let maxWidth := default 1920 (vid_maxWidth options) in
  let maxHeight := default 1080 (vid_maxHeight options) in
  when (truthy_io io && truthy_string jobId)
    (emitStatus io jobId "processing" "Starting video compression...") ;;
  let filename := basename inputPath in
  unique <- generateUniqueFilename filename "_compressed" ;;
  let outputFilename := replace_extension unique format in
  let outputPath := path_join outputDir outputFilename in
  let '(videoBitrate, audioBitrate) :=
    if String.eqb quality "low" then ("500k", "64k")
    else if String.eqb quality "high" then ("2000k", "192k")
    else ("1000k", "128k") in
  let command :=
    {| ff_input := inputPath; ff_videoCodec := Some "libx264"; ff_audioCodec := "aac";
       ff_videoBitrate := Some videoBitrate; ff_audioBitrate := audioBitrate;
       ff_size := Some (pretty maxWidth +:+ "x" +:+ pretty maxHeight);
       ff_format := format; ff_output := outputPath |} in
  run <- ask (ffmpeg ext command) ;;
  match run with
  | FfmpegThrows message => throw message
  | FfmpegError percents message =>
      on_progress "video" io jobId percents ;;
      throw ("Video compression failed: " +:+ message)
  | FfmpegEnd percents =>
      on_progress "video" io jobId percents ;;
      on_end "Video" inputPath outputPath format io jobId
  end.

Definition compressAudio (inputPath outputDir : string) (options : AudioOptions)
    (io : option Io) (jobId : option string) : M W CompressionResult :=
  let quality := default "medium" (aud_quality options) in
  let format := default "mp3" (aud_format options) in
  when (truthy_io io && truthy_string jobId)
    (emitStatus io jobId "processing" "Starting audio compression...") ;;
  let filename := basename inputPath in
  unique <- generateUniqueFilename filename "_compressed" ;;
  let outputFilename := replace_extension unique format in
  let outputPath := path_join outputDir outputFilename in
  let bitrate :=
    if String.eqb quality "low" then "64k"
    else if String.eqb quality "high" then "192k"
    else "128k" in
  let command :=
    {| ff_input := inputPath; ff_videoCodec := None; ff_audioCodec := "libmp3lame";
       ff_videoBitrate := None; ff_audioBitrate := bitrate; ff_size := None;
       ff_format := format; ff_output := outputPath |} in
  run <- ask (ffmpeg ext command) ;;
  match run with
  | FfmpegThrows message => throw message
  | FfmpegError percents message =>
      on_progress "audio" io jobId percents ;;
      throw ("Audio compression failed: " +:+ message)
  | FfmpegEnd percents =>
      on_progress "audio" io jobId percents ;;
      on_end "Audio" inputPath outputPath format io jobId
  end.

(** The [options] argument of [compressPDF] is never read and is left out. *)
Definition compressPDF (inputPath outputDir : string)
    (io : option Io) (jobId : option string) : M W CompressionResult :=
  try_catch
    (when (truthy_io io && truthy_string jobId)
       (emitStatus io jobId "processing" "Processing PDF..." ;;
        emitProgress io jobId (50, "Copying PDF file...")) ;;
     let filename := basename inputPath in
     outputFilename <- generateUniqueFilename filename "_compressed" ;;
     let outputPath := path_join outputDir outputFilename in
     call (fs_copy ext inputPath outputPath) ;;
     originalSize <- getFileSize inputPath ;;
     compressedSize <- getFileSize outputPath ;;
     let compressionRatio := 0 in
     when (truthy_io io && truthy_string jobId)
       (emitProgress io jobId (100, "PDF processing completed!")) ;;
     ret {| originalPath := inputPath; compressedPath := outputPath;
            originalSize := originalSize; compressedSize := compressedSize;
            compressionRatio := compressionRatio; format := "pdf";
            note := Some "PDF compression requires additional tools - file copied as-is";
            originalFilename := None |})
    (fun error => throw ("PDF processing failed: " +:+ error)).

(** The files [createArchive] adds to the zip: path on disk and entry name. *)
Definition archive_entries (results : list BatchEntry) : list (string * string) :=
  flat_map
    (fun result =>
       match result with
       | Compressed r =>
           if negb (String.eqb (compressedPath r) "") then
             [ (compressedPath r, basename (compressedPath r)) ]
           else []
       | Failure _ _ => []
       end)
    results.

(** The promise resolves with [archivePath] when the output stream closes
    and rejects with the archiver's error. *)
Definition createArchive (results : list BatchEntry) (outputDir archiveName : string)
    : M W string :=
  let archivePath := path_join outputDir archiveName in
  call (archiver ext archivePath (archive_entries results)) ;;
  ret archivePath.

(** The [switch (fileType)] of [compressBatch]. *)
Definition dispatch (fileType : string) (file : FileRef) (outputDir : string)
    (options : BatchOptions) (io : option Io) (jobId : option string)
    : M W CompressionResult :=
  if String.eqb fileType "images" then
    compressImage (path file) outputDir (image options) io jobId
  else if String.eqb fileType "videos" then
    compressVideo (path file) outputDir (video options) io jobId
  else if String.eqb fileType "audio" then
    compressAudio (path file) outputDir (audio options) io jobId
  else if String.eqb fileType "documents" then
    compressPDF (path file) outputDir io jobId
  else throw ("Unsupported file type: " +:+ fileType).

(** [Math.round((i / total) * 90)] *)
Definition batch_progress (i total : nat) : Z :=
  Math_round (js_div (Z.of_nat i) (Z.of_nat total) * inject_Z 90)%Q.

(** One iteration of the [for] loop: the entry pushed on [results]. *)
Definition processFile (i total : nat) (file : FileRef) (outputDir : string)
    (options : BatchOptions) (io : option Io) (jobId : option string)
    : M W BatchEntry :=
  let fileType := getFileTypeCategory (filename file) in
  when (truthy_io io && truthy_string jobId)
    (let progress := batch_progress i total in
     emitProgress io jobId
       (progress,
        "Processing file " +:+ pretty (i + 1)%nat +:+ "/" +:+ pretty total +:+ ": "
          +:+ filename file)) ;;
  try_catch
    (result <- dispatch fileType file outputDir options io jobId ;;
     ret (Compressed (set_originalFilename result (filename file))))
    (fun error => ret (Failure (filename file) error)).

(** The [for] loop from index [i] on; [todo] is [files.slice(i)]. *)
Fixpoint batchLoop (todo : list FileRef) (i total : nat) (outputDir : string)
    (options : BatchOptions) (io : option Io) (jobId : option string)
    (results : list BatchEntry) : M W (list BatchEntry) :=
  match todo with
  | [] => ret results
  | file :: rest =>
      entry <- processFile i total file outputDir options io jobId ;;
      batchLoop rest (S i) total outputDir options io jobId (results ++ [entry])
  end.

Definition count_where (p : BatchEntry -> bool) (results : list BatchEntry) : nat :=
  length (List.filter p results).

Definition compressBatch (files : list FileRef) (outputDir : string)
    (options : BatchOptions) (io : option Io) (jobId : option string)
    : M W BatchResult :=
  try_catch
    (let total := length files in
     when (truthy_io io && truthy_string jobId)
       (emitStatus io jobId "processing"
          ("Starting batch compression of " +:+ pretty total +:+ " files...")) ;;
     results <- batchLoop files 0 total outputDir options io jobId [] ;;
     if (1 <? length results)%nat && createArchive_requested options then
       when (truthy_io io && truthy_string jobId)
         (emitProgress io jobId (95, "Creating archive...")) ;;
       archivePath <- createArchive results outputDir "compressed_files.zip" ;;
       when (truthy_io io && truthy_string jobId)
         (emitProgress io jobId (100, "Batch compression completed!")) ;;
       ret {| files := results; archive := Some archivePath; totalFiles := total;
              successfulFiles := count_where (fun r => negb (failed r)) results;
              failedFiles := count_where failed results |}
     else
       when (truthy_io io && truthy_string jobId)
         (emitProgress io jobId (100, "Batch compression completed!")) ;;
       ret {| files := results; archive := None; totalFiles := total;
              successfulFiles := count_where (fun r => negb (failed r)) results;
              failedFiles := count_where failed results |})
    (fun error => throw ("Batch compression failed: " +:+ error)).

End Service.

(** ** [routes/compress.js]: [POST /api/compress/batch] *)

(** [f.originalSize || 0] and [f.compressedSize || 0]: an entry without the
    field counts for 0. *)
Definition originalSize_or_0 (f : BatchEntry) : N :=
  match f with Compressed r => originalSize r | Failure _ _ => 0%N end.
Definition compressedSize_or_0 (f : BatchEntry) : N :=
  match f with Compressed r => compressedSize r | Failure _ _ => 0%N end.

(** [response.summary]. *)
Definition batchSummary (result : BatchResult) : Summary :=
  let successful := List.filter (fun f => negb (failed f)) (files result) in
  let totalOriginalSize :=
    fold_left (fun sum f => (sum + originalSize_or_0 f)%N) successful 0%N in
  let totalCompressedSize :=
    fold_left (fun sum f => (sum + compressedSize_or_0 f)%N) successful 0%N in
  let totalSaved := Z.of_N totalOriginalSize - Z.of_N totalCompressedSize in
  {| sum_totalFiles := totalFiles result;
     sum_successfulFiles := successfulFiles result;
     sum_failedFiles := failedFiles result;
     totalOriginalSize := totalOriginalSize;
     totalCompressedSize := totalCompressedSize;
     totalSaved := totalSaved;
     overallRatio :=
       if 0 <? Z.of_N totalOriginalSize
       then Math_round (js_div totalSaved (Z.of_N totalOriginalSize) * inject_Z 100)%Q
       else 0 |}.

(** [response.files]. *)
Definition responseFile (file : BatchEntry) : ResponseFile :=
  match file with
  | Failure name error => FileFailure name error
  | Compressed r =>
      FileSuccess (originalFilename r) (compressedPath r) (originalSize r)
        (compressedSize r) (compressionRatio r)
  end.

Definition batchResponse (jobId : string) (result : BatchResult) : BatchResponse :=
  {| resp_jobId := jobId;
     summary := batchSummary result;
     resp_files := map responseFile (files result);
     archivePath := if truthy_string (archive result) then archive result else None |}.

(** The body of a batch request: [files] is [None] when the field is
    missing or not an array. *)
Record BatchRequest := {
  req_files : option (list FileRef);
  req_image : ImageOptions;
  req_video : VideoOptions;
  req_audio : AudioOptions;
  req_createArchive : bool
}.

(** How the handler ends: [res.status(400 | 404).json({success: false, error})],
    [res.json(response)] or [next(error)]. *)
Inductive HttpReply :=
| Status400 (error : string)
| Status404 (error : string)
| Json (response : BatchResponse)
| Next (error : string).

Section Route.
Context {W : Type} (ext : External W).

(** The validation loop: the first file that does not exist, if any. *)
Fixpoint first_missing (files : list FileRef) : M W (option FileRef) :=
  match files with
  | [] => ret None
  | file :: rest =>
      exists_ <- validateFileExists ext (path file) ;;
      if negb exists_ then ret (Some file) else first_missing rest
  end.

(** [tempDir] is [path.join(__dirname, "..", "temp")]. *)
Definition postBatch (tempDir : string) (io : option Io) (body : BatchRequest)
    : M W HttpReply :=
  match req_files body with
  | None | Some [] => ret (Status400 "Files array is required")
  | Some files =>
      jobId <- generateJobId ext ;;
      try_catch
        (missing <- first_missing files ;;
         match missing with
         | Some file => ret (Status404 ("File not found: " +:+ path file))
         | None =>
             call (fs_ensureDir ext tempDir) ;;
             when (truthy_io io)
               (emitStatus io (Some jobId) "started"
                  ("Starting batch compression of " +:+ pretty (length files)
                     +:+ " files")) ;;
             let batchOptions :=
               {| image := req_image body; video := req_video body;
                  audio := req_audio body;
                  createArchive_requested := req_createArchive body |} in
             result <- compressBatch ext files tempDir batchOptions io (Some jobId) ;;
             let response := batchResponse jobId result in
             when (truthy_io io) (emitCompletion io (Some jobId) response) ;;
             ret (Json response)
         end)
        (fun error =>
           when (truthy_io io && truthy_string (Some jobId))
             (emitError io (Some jobId) error) ;;
           ret (Next error))
  end.

End Route.

(** ** The progress channel: socket.io rooms

    [setupWebSocket] registers three handlers per connection.  The state of
    the server is the [activeConnections] map of the module, the table of
    the job rooms of socket.io (room name to the ids of the sockets that
    joined it) and, for each socket, the packets sent to it so far.  The
    private room socket.io keeps per socket, named after the socket id, is
    not a job room and is not part of the table. *)
Record Server := {
  activeConnections : gset string;
  rooms : gmap string (gset string);
  sent : gmap string (list Emit)
}.

Definition members (srv : Server) (room : string) : gset string :=
  default ∅ (rooms srv !! room).

Definition inbox (srv : Server) (socket : string) : list Emit :=
  default [] (sent srv !! socket).

(** [io.on('connection', socket => { activeConnections.set(socket.id, socket) ... })] *)
Definition connection (socket : string) (srv : Server) : Server :=
  {| activeConnections := {[socket]} ∪ activeConnections srv;
     rooms := rooms srv; sent := sent srv |}.

(** ['join-job']: [socket.join(jobId)] *)
Definition join_job (socket jobId : string) (srv : Server) : Server :=
  {| activeConnections := activeConnections srv;
     rooms := <[jobId := {[socket]} ∪ members srv jobId]> (rooms srv);
     sent := sent srv |}.

(** Removing a socket from one room; an emptied room is dropped. *)
Definition without (socket : string) (room : gset string) : option (gset string) :=
  let rest := room ∖ {[socket]} in
  if decide (rest = ∅) then None else Some rest.

(** ['leave-job']: [socket.leave(jobId)] *)
Definition leave_job (socket jobId : string) (srv : Server) : Server :=
  {| activeConnections := activeConnections srv;
     rooms :=
       match rooms srv !! jobId with
       | Some room =>
           match without socket room with
           | Some rest => <[jobId := rest]> (rooms srv)
           | None => delete jobId (rooms srv)
           end
       | None => rooms srv
       end;
     sent := sent srv |}.

(** ['disconnect']: socket.io takes the socket out of every room, the
    handler deletes it from [activeConnections]. *)
Definition disconnect (socket : string) (srv : Server) : Server :=
  {| activeConnections := activeConnections srv ∖ {[socket]};
     rooms := omap (without socket) (rooms srv);
     sent := sent srv |}.

(** Delivery of one [io.to(room).emit(event, payload)] to the sockets that
    are in the room at that moment. *)
Definition deliver (e : Emit) (srv : Server) : Server :=
  {| activeConnections := activeConnections srv;
     rooms := rooms srv;
     sent :=
       set_fold (fun socket acc => <[socket := default [] (acc !! socket) ++ [e]]> acc)
         (sent srv) (members srv (room e)) |}.

(** What happens on the channel, one step at a time. *)
Inductive Action :=
| Connect (socket : string)
| JoinJob (socket jobId : string)
| LeaveJob (socket jobId : string)
| Disconnect (socket : string)
| Publish (e : Emit).

Definition step (srv : Server) (a : Action) : Server :=
  match a with
  | Connect s => connection s srv
  | JoinJob s j => join_job s j srv
  | LeaveJob s j => leave_job s j srv
  | Disconnect s => disconnect s srv
  | Publish e => deliver e srv
  end.

Definition run (srv : Server) (trace : list Action) : Server :=
  fold_left step trace srv.


Definition empty_server : Server :=
  {| activeConnections := ∅; rooms := ∅; sent := ∅ |}.

(** ** Reading the packets *)



(** The packet [compressBatch] publishes before it processes file [i]. *)
Definition file_progress (jobId : string) (i total : nat) (file : FileRef) : Emit :=
  {| room := jobId; event := "progress";
     payload :=
       ProgressPayload (batch_progress i total)
         ("Processing file " +:+ pretty (i + 1)%nat +:+ "/" +:+ pretty total +:+ ": "
            +:+ filename file) |}.

(** The entry [compressBatch] pushes for a file, from how its compressor
    ended. *)
Definition entry_of (file : FileRef) (o : Outcome CompressionResult) : BatchEntry :=
  match o with
  | Returned result => Compressed (set_originalFilename result (filename file))
  | Thrown error => Failure (filename file) error
  end.

(** The successful entries of [results]. *)
Definition successes (results : list BatchEntry) : list CompressionResult :=
  omap (fun r => match r with Compressed c => Some c | Failure _ _ => None end) results.


(** ** The statements of the specification that the code does not follow *)


(** The condition the specification gives for the archive step: more than
    one file succeeded and archiving was requested. *)
Definition spec_archive_condition (options : BatchOptions) (results : list BatchEntry) : bool :=
  (1 <? length (successes results))%nat && createArchive_requested options.

(** ** Observing the calls of the archiver

    Any world can be run with a recorder next to it that notes each call of
    the archiver: the path of the zip file and the entries added to it. *)
Definition ArchiveCall : Type := string * list (string * string).

Definition aside {W L A} (f : W -> W * A) (s : W * L) : (W * L) * A :=
  match f s.1 with (w, a) => ((w, s.2), a) end.

Definition recording {W} (ext : External W) : External (W * list ArchiveCall) :=
  {| fs_stat := fun p => aside (fs_stat ext p);
     fs_copy := fun a b => aside (fs_copy ext a b);
     fs_access := fun p => aside (fs_access ext p);
     fs_ensureDir := fun p => aside (fs_ensureDir ext p);
     sharp := fun s => aside (sharp ext s);
     ffmpeg := fun c => aside (ffmpeg ext c);
     archiver := fun zip entries s =>
       match archiver ext zip entries s.1 with
       | (w, r) => ((w, s.2 ++ [ (zip, entries) ]), r)
       end;
     Date_now := aside (Date_now ext);
     uuidv4 := aside (uuidv4 ext) |}.

(** ** Scripted worlds for the examples

    The state counts the calls of the clock and of the uuid generator; the
    script says what [fs.stat], sharp, ffmpeg and the archiver answer. *)
Definition scripted (size_of : string -> Outcome N)
    (sharp_step : SharpStep -> Outcome unit)
    (ffmpeg_run : FfmpegCommand -> FfmpegRun)
    (zip : Outcome unit) : External nat :=
  {| fs_stat := fun p w => (w, size_of p);
     fs_copy := fun _ _ w => (w, Returned tt);
     fs_access := fun _ w => (w, Returned tt);
     fs_ensureDir := fun _ w => (w, Returned tt);
     sharp := fun s w => (w, sharp_step s);
     ffmpeg := fun c w => (w, ffmpeg_run c);
     archiver := fun _ _ w => (w, zip);
     Date_now := fun w => (S w, N.of_nat w);
     uuidv4 := fun w => (S w, "3f2b8c1e-7a4d-4e0b-9c55-1d2e3f4a5b6c") |}.

Definition default_image : ImageOptions :=
  {| img_quality := None; img_format := None; img_width := None;
     img_height := None; img_progressive := None |}.
Definition default_video : VideoOptions :=
  {| vid_quality := None; vid_format := None; vid_maxWidth := None;
     vid_maxHeight := None |}.
Definition default_audio : AudioOptions :=
  {| aud_quality := None; aud_format := None |}.
Definition default_options (archiving : bool) : BatchOptions :=
  {| image := default_image; video := default_video; audio := default_audio;
     createArchive_requested := archiving |}.

(** Every file is 1000 bytes and compresses to 400; every collaborator
    succeeds. *)
Definition sizes_1000_400 (p : string) : Outcome N :=
  if String.eqb (slice0 8 p) "uploads/" then Returned 1000%N else Returned 400%N.

Definition calm : External nat :=
  scripted sizes_1000_400 (fun _ => Returned tt) (fun _ => FfmpegEnd []) (Returned tt).

(** As [calm], but the archiver fails. *)
Definition zip_fails : External nat :=
  scripted sizes_1000_400 (fun _ => Returned tt) (fun _ => FfmpegEnd [])
    (Thrown "ENOSPC: no space left on device").



Definition upload (name : string) : FileRef :=
  {| filename := name; path := "uploads/" +:+ name |}.

(** The packets of the orchestrator itself. *)
Definition job_packets (io : option Io) (jobId : option string)
    (event : string) (payload : Payload) : list Emit :=
  if truthy_io io && truthy_string jobId
  then [ {| room := default "" jobId; event := event; payload := payload |} ]
  else [].

Definition batch_started (io : option Io) (jobId : option string) (total : nat) : list Emit :=
  job_packets io jobId "status"
    (StatusPayload "processing"
       ("Starting batch compression of " +:+ pretty total +:+ " files...")).

Definition creating_archive (io : option Io) (jobId : option string) : list Emit :=
  job_packets io jobId "progress" (ProgressPayload 95 "Creating archive...").

Definition batch_completed (io : option Io) (jobId : option string) : list Emit :=
  job_packets io jobId "progress" (ProgressPayload 100 "Batch compression completed!").

Definition file_started (io : option Io) (jobId : option string)
    (i total : nat) (file : FileRef) : list Emit :=
  if truthy_io io && truthy_string jobId
  then [ file_progress (default "" jobId) i total file ]
  else [].

(** The aggregate [compressBatch] returns for [results]. *)
Definition aggregate (total : nat) (results : list BatchEntry) (archive : option string)
    : BatchResult :=
  {| files := results; archive := archive; totalFiles := total;
     successfulFiles := count_where (fun r => negb (failed r)) results;
     failedFiles := count_where failed results |}.

(** The extension of a file name maps to no supported category. *)
Definition unsupported (name : string) : Prop :=
  forall category extensions,
    (category, extensions) ∈ SUPPORTED_TYPES ->
    toLowerCase (extname name) ∉ extensions.


(** A computation over a recorded world that leaves the record alone. *)
Definition keeps {W L A} (m : M (W * L) A) : Prop :=
  forall s, (world_of (m s)).2 = s.2.

(** The calls of the archiver made by a run that started with none. *)
Definition archive_calls {W A}
    (r : (W * list ArchiveCall) * list Emit * Outcome A) : list ArchiveCall :=
  (world_of r).2.

(** The entry of the zip file for one compressor result. *)
Definition zip_entry (r : CompressionResult) : string * string :=
  (compressedPath r, basename (compressedPath r)).

(** An entry that, when successful, names an output file. *)
Definition has_output (entry : BatchEntry) : Prop :=
  match entry with
  | Compressed r => compressedPath r <> ""
  | Failure _ _ => True
  end.




(** ** Further definitions: packets, rooms, errors and names *)

(** ** Further notions for the properties below *)

(** Every packet a computation hands to socket.io satisfies [P]. *)
Definition all_emitted {W A} (P : Emit -> Prop) (m : M W A) : Prop :=
  forall w, Forall P (emitted (m w)).

(** A packet published under the job id the caller passed, which then was a
    usable one next to a server handle. *)
Definition under_job (io : option Io) (jobId : option string) (e : Emit) : Prop :=
  room e = default "" jobId /\ truthy_io io = true /\ truthy_string jobId = true.



(** A packet that reports on a job under way. *)
Definition in_flight (e : Emit) : Prop := event e = "status" \/ event e = "progress".

(** ** The channel, further *)

(** [getActiveConnectionsCount()] *)
Definition getActiveConnectionsCount (srv : Server) : nat :=
  size (activeConnections srv).



(** ** [middleware/errorHandler.js] *)

(** [hay.includes(needle)] on the characters of the two strings. *)
Fixpoint starts_with (needle hay : list ascii) : bool :=
  match needle, hay with
  | [], _ => true
  | a :: needle', b :: hay' => bool_decide (a = b) && starts_with needle' hay'
  | _ :: _, [] => false
  end.

Fixpoint occurs (needle hay : list ascii) : bool :=
  starts_with needle hay
  || match hay with
     | [] => false
     | _ :: hay' => occurs needle hay'
     end.

Definition includes_string (hay needle : string) : bool :=
  occurs (chars needle) (chars hay).

(** The fields of an error the handler reads; [None] is [undefined]. *)
Record JsError := {
  e_message : option string;
  e_status : option Z;
  e_code : option string;
  e_name : option string
}.

(** [new Error(message)] *)
Definition new_Error (message : string) : JsError :=
  {| e_message := Some message; e_status := None; e_code := None;
     e_name := Some "Error" |}.

(** The [error] object of the handler, which becomes the status of the reply
    and the message of its body; the time stamp, the path and the method of
    the body are left out, and so is the stack of development mode. *)
Record ErrorReply := { reply_message : string; reply_status : Z }.

(** [err.message && err.message.includes(phrase)] *)
Definition message_includes (err : JsError) (phrase : string) : bool :=
  truthy_string (e_message err) && includes_string (default "" (e_message err)) phrase.

(** [err.code === code] *)
Definition code_is (err : JsError) (code : string) : bool :=
  bool_decide (e_code err = Some code).

(** ['Validation failed: ' + err.message] *)
Definition concat_message (prefix : string) (message : option string) : string :=
  prefix +:+ default "undefined" message.

Definition errorHandler (err : JsError) : ErrorReply :=
  let error :=
    {| reply_message :=
         if truthy_string (e_message err) then default "" (e_message err)
         else "Internal Server Error";
       reply_status :=
         if truthy_number (e_status err) then default 0 (e_status err) else 500 |} in
  let error :=
    if code_is err "LIMIT_FILE_SIZE" then
      {| reply_message := "File too large. Maximum size allowed is 100MB per file.";
         reply_status := 413 |}
    else error in
  let error :=
    if code_is err "LIMIT_FILE_COUNT" then
      {| reply_message := "Too many files. Maximum 10 files allowed per upload.";
         reply_status := 413 |}
    else error in
  let error :=
    if code_is err "LIMIT_UNEXPECTED_FILE" then
      {| reply_message := "Unexpected file field or too many files.";
         reply_status := 400 |}
    else error in
  let error :=
    if message_includes err "Invalid file type" then
      {| reply_message := default "" (e_message err); reply_status := 400 |}
    else error in
  let error :=
    if message_includes err "ffmpeg" then
      {| reply_message := "Video compression failed. Please check the video format.";
         reply_status := 422 |}
    else error in
  let error :=
    if message_includes err "Input file contains unsupported image format" then
      {| reply_message :=
           "Unsupported image format. Please use JPEG, PNG, WebP, or TIFF.";
         reply_status := 422 |}
    else error in
  let error :=
    if code_is err "ENOENT" then
      {| reply_message := "File not found."; reply_status := 404 |}
    else error in
  let error :=
    if code_is err "EACCES" then
      {| reply_message := "Permission denied."; reply_status := 403 |}
    else error in
  let error :=
    if code_is err "ENOSPC" then
      {| reply_message := "No space left on device."; reply_status := 507 |}
    else error in
  let error :=
    if message_includes err "Too many requests" then
      {| reply_message := "Rate limit exceeded. Please try again later.";
         reply_status := 429 |}
    else error in
  let error :=
    if bool_decide (e_name err = Some "ValidationError") then
      {| reply_message := concat_message "Validation failed: " (e_message err);
         reply_status := 400 |}
    else error in
  error.

(** No rule of the handler that reads the message applies. *)
Definition plain_message (message : string) : Prop :=
  includes_string message "Invalid file type" = false /\
  includes_string message "ffmpeg" = false /\
  includes_string message "Input file contains unsupported image format" = false /\
  includes_string message "Too many requests" = false.

(** ** [routes/upload.js]: the file filter of multer *)

(** [cb(null, true)] accepts the file, [cb(new Error(...), false)] refuses it
    with the error the upload fails with. *)
Definition fileFilter (originalname : string) : Outcome unit :=
  if isFileTypeSupported originalname then Returned tt
  else Thrown ("Invalid file type: " +:+ extname originalname
               +:+ ". Supported types: images, videos, audio, PDFs").

(** The characters after the dot of an extension: neither dots nor
    separators. *)
Definition extension_tail (t : list ascii) : Prop :=
  Forall (fun c => is_dot c = false) t /\ Forall (fun c => is_slash c = false) t.

(** ** [routes/compress.js]: [POST /job/:jobId] *)

Section JobRoute.
Context {W : Type} (ext : External W).

(** [jobId] is the parameter of the URL; [tempDir] is
    [path.join(__dirname, "..", "temp")]. *)
Definition postJob (tempDir : string) (io : option Io) (jobId : string)
    (body : BatchRequest) : M W HttpReply :=
  try_catch
    (match req_files body with
     | None | Some [] => ret (Status400 "Files array is required")
     | Some files =>
         missing <- first_missing ext files ;;
         match missing with
         | Some file => ret (Status404 ("File not found: " +:+ path file))
         | None =>
             call (fs_ensureDir ext tempDir) ;;
             when (truthy_io io)
               (emitStatus io (Some jobId) "processing"
                  ("Processing " +:+ pretty (length files) +:+ " files")) ;;
             let batchOptions :=
               {| image := req_image body; video := req_video body;
                  audio := req_audio body;
                  createArchive_requested := req_createArchive body |} in
             result <- compressBatch ext files tempDir batchOptions io (Some jobId) ;;
             let response := batchResponse jobId result in
             when (truthy_io io) (emitCompletion io (Some jobId) response) ;;
             ret (Json response)
         end
     end)
    (fun error =>
       when (truthy_io io) (emitError io (Some jobId) error) ;;
       ret (Next error)).

End JobRoute.

(** ** [utils/fileUtils.js]: cleaning up

    What [cleanupOldFiles] and [cleanupFile] ask of the outside: the names
    in a directory, the modification time of a file in milliseconds
    ([(await fs.stat(p)).mtime.getTime()]), the removal of a file, and the
    clock ([Date.now()]). *)
Record Disk (W : Type) := {
  fs_readdir : string -> W -> W * Outcome (list string);
  fs_mtime : string -> W -> W * Outcome Z;
  fs_remove : string -> W -> W * Outcome unit;
  clock : W -> W * Z
}.
Arguments fs_readdir {W} _ _ _.
Arguments fs_mtime {W} _ _ _.
Arguments fs_remove {W} _ _ _.
Arguments clock {W} _ _.

Section Cleanup.
Context {W : Type} (disk : Disk W).

(** The body of the [for] loop of [cleanupOldFiles], with its own [try]. *)
Definition cleanupOne (directory : string) (now maxAge : Z) (file : string)
    (cleanedCount : nat) : M W nat :=
  let filePath := path_join directory file in
  try_catch
    (mtime <- call (fs_mtime disk filePath) ;;
     let fileAge := now - mtime in
     if maxAge <? fileAge then
       call (fs_remove disk filePath) ;;
       ret (S cleanedCount)
     else ret cleanedCount)
    (fun _error => ret cleanedCount).

Fixpoint cleanupLoop (directory : string) (now maxAge : Z) (files : list string)
    (cleanedCount : nat) : M W nat :=
  match files with
  | [] => ret cleanedCount
  | file :: rest =>
      cleanedCount' <- cleanupOne directory now maxAge file cleanedCount ;;
      cleanupLoop directory now maxAge rest cleanedCount'
  end.

Definition cleanupOldFiles (directory : string) (maxAgeHours : Z) : M W nat :=
  try_catch
    (files <- call (fs_readdir disk directory) ;;
     now <- ask (clock disk) ;;
     let maxAge := maxAgeHours * 60 * 60 * 1000 in
     cleanupLoop directory now maxAge files 0)
    (fun _error => ret 0%nat).

Definition cleanupFile (filePath : string) : M W bool :=
  try_catch
    (call (fs_remove disk filePath) ;; ret true)
    (fun _error => ret false).

End Cleanup.

(** The calls of [fs.stat] and [fs.remove] a run makes, with what they gave.
    [watching disk] is [disk] with a list of its calls next to the state. *)
Inductive DiskCall :=
| Statted (filePath : string) (mtime : Outcome Z)
| Removed (filePath : string) (done : Outcome unit).

Definition watching {W} (disk : Disk W) : Disk (W * list DiskCall) :=
  {| fs_readdir := fun directory s =>
       let '(w', r) := fs_readdir disk directory s.1 in ((w', s.2), r);
     fs_mtime := fun filePath s =>
       let '(w', r) := fs_mtime disk filePath s.1 in
       ((w', s.2 ++ [Statted filePath r]), r);
     fs_remove := fun filePath s =>
       let '(w', r) := fs_remove disk filePath s.1 in
       ((w', s.2 ++ [Removed filePath r]), r);
     clock := fun s => let '(w', t) := clock disk s.1 in ((w', s.2), t) |}.

(** The calls of one clean-up, for the time [now] it read: every file is
    statted; a file is removed right after its stat when that gave a time
    more than [maxAge] before [now], and at no other point. *)
Fixpoint cleanup_calls (now maxAge : Z) (calls : list DiskCall) : bool :=
  match calls with
  | [] => true
  | Statted filePath (Returned mtime) :: rest =>
      if maxAge <? now - mtime then
        match rest with
        | Removed filePath' _ :: rest' =>
            bool_decide (filePath' = filePath) && cleanup_calls now maxAge rest'
        | _ => false
        end
      else cleanup_calls now maxAge rest
  | Statted _ (Thrown _) :: rest => cleanup_calls now maxAge rest
  | Removed _ _ :: _ => false
  end.

Definition statted_paths (calls : list DiskCall) : list string :=
  omap (fun c => match c with Statted p _ => Some p | Removed _ _ => None end) calls.

Definition removals_done (calls : list DiskCall) : nat :=
  length (List.filter
            (fun c => match c with Removed _ (Returned _) => true | _ => false end)
            calls).

(** ** The packet that ends the compression of one file *)

(** The messages of the progress packets of 100 the four compressors
    publish before they return. *)
Definition completion_messages : list string :=
  [ "Image compression completed!"; "Video compression completed!";
    "Audio compression completed!"; "PDF processing completed!" ].

Definition is_completion (e : Emit) : bool :=
  String.eqb (event e) "progress"
  && match payload e with
     | ProgressPayload progress message =>
         (progress =? 100) && bool_decide (message ∈ completion_messages)
     | _ => false
     end.

Definition completions (packets : list Emit) : nat :=
  length (List.filter is_completion packets).

(** A run that returns ends with a completion packet, its only one; a run
    that throws has none. *)
Definition closes_with_completion {W A} (m : M W A) : Prop :=
  forall w,
    match outcome (m w) with
    | Returned _ =>
        exists earlier last,
          emitted (m w) = earlier ++ [last] /\
          is_completion last = true /\ completions earlier = 0%nat
    | Thrown _ => completions (emitted (m w)) = 0%nat
    end.

(** ** [utils/fileUtils.js]: [getSafeFilename] *)

(** The class [[a-zA-Z0-9.-]]. *)
Definition is_safe_char (c : ascii) : bool :=
  let n := N_of_ascii c in
  ((97 <=? n) && (n <=? 122))%N || ((65 <=? n) && (n <=? 90))%N
  || ((48 <=? n) && (n <=? 57))%N || is_dot c || bool_decide (c = "-"%char).

Definition is_underscore (c : ascii) : bool := bool_decide (c = "_"%char).

(** [.replace(/[^a-zA-Z0-9.-]/g, '_')] *)
Definition replace_unsafe (l : list ascii) : list ascii :=
  map (fun c => if is_safe_char c then c else "_"%char) l.

(** [.replace(/_{2,}/g, '_')]: of a run of underscores the last is kept. *)
Fixpoint squeeze_underscores (l : list ascii) : list ascii :=
  match l with
  | [] => []
  | c :: rest =>
      if is_underscore c
         && match rest with d :: _ => is_underscore d | [] => false end
      then squeeze_underscores rest
      else c :: squeeze_underscores rest
  end.

(** [.replace(/^_+|_+$/g, '')] *)
Definition trim_underscores (l : list ascii) : list ascii :=
  rev (drop_while is_underscore (rev (drop_while is_underscore l))).

Definition getSafeFilename (filename : string) : string :=
  unchars (trim_underscores (squeeze_underscores (replace_unsafe (chars filename)))).

(** No two underscores in a row. *)
Fixpoint no_double_underscore (l : list ascii) : bool :=
  match l with
  | [] => true
  | c :: rest =>
      negb (is_underscore c
            && match rest with d :: _ => is_underscore d | [] => false end)
      && no_double_underscore rest
  end.

(** What a safe name looks like: characters of the class and single
    underscores between them, none at either end. *)
Definition safe_name (s : string) : Prop :=
  Forall (fun c => is_safe_char c = true \/ c = "_"%char) (chars s) /\
  no_double_underscore (chars s) = true /\
  (forall c, head (chars s) = Some c -> c <> "_"%char) /\
  (forall c, last (chars s) = Some c -> c <> "_"%char).

(** * Properties *)

(** ** Rounding *)







(** ** Running computations *)

Section Runs.
Context {W : Type}.

Lemma bind_run {A B} (m : M W A) (k : A -> M W B) (w : W) :
  bind m k w =
  match outcome (m w) with
  | Returned a =>
      let r := k a (world_of (m w)) in
      (world_of r, emitted (m w) ++ emitted r, outcome r)
  | Thrown e => (world_of (m w), emitted (m w), Thrown e)
  end.
Proof.
  unfold bind, outcome, world_of, emitted.
  destruct (m w) as [[w1 out1] [a|e]]; simpl; [|reflexivity].
  destruct (k a w1) as [[w2 out2] r]; reflexivity.
Qed.

Lemma try_catch_run {A} (body : M W A) (handler : string -> M W A) (w : W) :
  try_catch body handler w =
  match outcome (body w) with
  | Returned a => (world_of (body w), emitted (body w), Returned a)
  | Thrown e =>
      let r := handler e (world_of (body w)) in
      (world_of r, emitted (body w) ++ emitted r, outcome r)
  end.
Proof.
  unfold try_catch, outcome, world_of, emitted.
  destruct (body w) as [[w1 out1] [a|e]]; simpl; [reflexivity|].
  destruct (handler e w1) as [[w2 out2] r]; reflexivity.
Qed.

Lemma bind_returned {A B} (m : M W A) (k : A -> M W B) (w : W) (b : B) :
  outcome (bind m k w) = Returned b ->
  exists a, outcome (m w) = Returned a /\ outcome (k a (world_of (m w))) = Returned b.
Proof.
  rewrite bind_run. destruct (outcome (m w)) as [a|e]; simpl; [|discriminate].
  intros H. exists a. split; [reflexivity | exact H].
Qed.

Lemma rethrow_returned {A} (body : M W A) (f : string -> string) (w : W) (a : A) :
  outcome (try_catch body (fun e => throw (f e)) w) = Returned a ->
  outcome (body w) = Returned a.
Proof.
  rewrite try_catch_run. destruct (outcome (body w)); simpl; [tauto | discriminate].
Qed.

End Runs.

(** Walks down a chain of binds that returned, one run at a time. *)
Ltac invert_binds H :=
  repeat match type of H with
         | outcome (bind _ _ _) = Returned _ =>
             let a := fresh "a" in
             let Ha := fresh "Ha" in
             apply bind_returned in H as (a & Ha & H)
         end.

Section FileSizes.
Context {W : Type} (ext : External W).










End FileSizes.

(** ** The batch loop *)

Section Batch.
Context {W : Type} (ext : External W).
Variables (outputDir : string) (options : BatchOptions)
          (io : option Io) (jobId : option string).

(** One file: whatever its compressor does, an entry comes back. *)
Lemma processFile_run (i total : nat) (file : FileRef) (w : W) :
  processFile ext i total file outputDir options io jobId w =
  let d := dispatch ext (getFileTypeCategory (filename file)) file outputDir
             options io jobId w in
  (world_of d, file_started io jobId i total file ++ emitted d,
   Returned (entry_of file (outcome d))).
Proof.
  unfold processFile, file_started, file_progress, bind, try_catch, when,
    emitProgress, io_to_emit, ret, world_of, emitted, outcome.
  cbv zeta.
  destruct (truthy_io io), (truthy_string jobId); cbn [andb negb orb fst snd];
    destruct (dispatch ext _ file outputDir options io jobId w) as [[w1 out] [r|e]];
    cbn [fst snd app entry_of]; rewrite ?app_nil_r; reflexivity.
Qed.

Lemma batchLoop_acc (todo : list FileRef) (i total : nat)
    (results : list BatchEntry) (w : W) :
  batchLoop ext todo i total outputDir options io jobId results w =
  let r := batchLoop ext todo i total outputDir options io jobId [] w in
  (world_of r, emitted r,
   match outcome r with
   | Returned entries => Returned (results ++ entries)
   | Thrown e => Thrown e
   end).
Proof.
  revert i results w. induction todo as [|file rest IH]; intros i results w.
  - cbn. rewrite app_nil_r. reflexivity.
  - cbn [batchLoop]. unfold bind. rewrite processFile_run.
    cbv beta iota zeta. rewrite (IH (S i) (results ++ _)), (IH (S i) ([] ++ _)).
    cbv zeta. unfold outcome, world_of, emitted.
    destruct (batchLoop ext rest (S i) total outputDir options io jobId [] _)
      as [[w2 out2] [entries|e]]; cbn [fst snd app];
      rewrite <- ?(app_assoc results), <- ?app_assoc; reflexivity.
Qed.

Lemma batchLoop_cons (file : FileRef) (rest : list FileRef) (i total : nat) (w : W) :
  batchLoop ext (file :: rest) i total outputDir options io jobId [] w =
  let d := dispatch ext (getFileTypeCategory (filename file)) file outputDir
             options io jobId w in
  let r := batchLoop ext rest (S i) total outputDir options io jobId [] (world_of d) in
  (world_of r,
   file_started io jobId i total file ++ emitted d ++ emitted r,
   match outcome r with
   | Returned entries => Returned (entry_of file (outcome d) :: entries)
   | Thrown e => Thrown e
   end).
Proof.
  cbn [batchLoop]. unfold bind. rewrite processFile_run.
  cbv beta iota zeta. rewrite batchLoop_acc.
  cbv zeta. unfold outcome, world_of, emitted.
  destruct (batchLoop ext rest (S i) total outputDir options io jobId [] _)
    as [[w2 out2] [entries|e]]; cbn [fst snd app]; rewrite <- app_assoc; reflexivity.
Qed.

(** The loop never throws and pushes one entry per file. *)
Lemma batchLoop_returns (todo : list FileRef) (i total : nat) (w : W) :
  exists entries,
    outcome (batchLoop ext todo i total outputDir options io jobId [] w)
    = Returned entries /\
    length entries = length todo.
Proof.
  revert i w. induction todo as [|file rest IH]; intros i w.
  - exists []. split; reflexivity.
  - rewrite batchLoop_cons. cbv zeta.
    destruct (IH (S i) (world_of (dispatch ext (getFileTypeCategory (filename file))
                                     file outputDir options io jobId w)))
      as (entries & He & Hlen).
    eexists. unfold outcome at 1. cbn [snd]. rewrite He.
    split; [reflexivity|]. cbn. rewrite Hlen. reflexivity.
Qed.


End Batch.

Section Orchestrator.
Context {W : Type} (ext : External W).
Variables (outputDir : string) (options : BatchOptions)
          (io : option Io) (jobId : option string).

(** [compressBatch] after its loop: the archive branch or the plain one. *)
Lemma compressBatch_run (files : list FileRef) (w : W) (results : list BatchEntry) :
  let total := length files in
  let s := batchLoop ext files 0 total outputDir options io jobId [] w in
  outcome s = Returned results ->
  compressBatch ext files outputDir options io jobId w =
  if (1 <? length results)%nat && createArchive_requested options then
    let zip := path_join outputDir "compressed_files.zip" in
    let z := archiver ext zip (archive_entries results) (world_of s) in
    match z.2 with
    | Returned _ =>
        (z.1,
         batch_started io jobId total ++ emitted s ++ creating_archive io jobId
           ++ batch_completed io jobId,
         Returned (aggregate total results (Some zip)))
    | Thrown e =>
        (z.1, batch_started io jobId total ++ emitted s ++ creating_archive io jobId,
         Thrown ("Batch compression failed: " +:+ e))
    end
  else
    (world_of s, batch_started io jobId total ++ emitted s ++ batch_completed io jobId,
     Returned (aggregate total results None)).
Proof.
  cbv zeta. intros Hs.
  unfold compressBatch, createArchive, emitStatus, emitProgress.
  unfold try_catch, bind, when, call, ret, throw, io_to_emit, batch_started,
    creating_archive, batch_completed, job_packets, aggregate.
  cbv beta zeta. unfold outcome, world_of, emitted in *.
  destruct (truthy_io io), (truthy_string jobId); cbn [andb negb orb];
    cbv beta iota;
    destruct (batchLoop ext files 0 (length files) outputDir options io jobId [] w)
      as [[ws outs] [rs|e]]; cbn [fst snd] in *; try discriminate;
    injection Hs as ->;
    (destruct ((1 <? length results)%nat && createArchive_requested options);
     [ destruct (archiver ext _ (archive_entries results) ws) as [wz [[]|e]]
     | ]);
    cbv beta iota; cbn [fst snd app]; rewrite ?app_nil_r; reflexivity.
Qed.

End Orchestrator.

(** ** Counting entries *)


Lemma count_successes (results : list BatchEntry) :
  count_where (fun r => negb (failed r)) results = length (successes results).
Proof.
  unfold count_where, successes.
  induction results as [|[r|name e] rest IH]; cbn; congruence.
Qed.

(** ** File categories *)

Lemma find_category_unknown (ext_ : string) (table : list (string * list string)) :
  Forall (fun entry => entry.1 <> "unknown") table ->
  find_category ext_ table = "unknown" <->
  (forall category extensions, (category, extensions) ∈ table -> ext_ ∉ extensions).
Proof.
  induction 1 as [|[category extensions] rest Hname _ IH]; cbn.
  - split; [intros _ c e Hin; inversion Hin | reflexivity].
  - unfold includes. case_bool_decide as Hin.
    + split; [intros E; cbn in Hname; congruence|].
      intros Hall. exfalso. apply (Hall category extensions); [|exact Hin].
      apply elem_of_cons. left. reflexivity.
    + rewrite IH. split.
      * intros Hall c e Hce. apply elem_of_cons in Hce as [[= -> ->]|Hce];
          [exact Hin | eapply Hall; eassumption].
      * intros Hall c e Hce. apply (Hall c e). apply elem_of_cons. right. exact Hce.
Qed.

Lemma unsupported_unknown (name : string) :
  unsupported name <-> getFileTypeCategory name = "unknown".
Proof.
  unfold unsupported, getFileTypeCategory. symmetry.
  apply find_category_unknown.
  unfold SUPPORTED_TYPES. repeat constructor; cbn; discriminate.
Qed.

Section Isolation.
Context {W : Type} (ext : External W).
Variables (outputDir : string) (options : BatchOptions)
          (io : option Io) (jobId : option string).


(** Only the archiver can make [compressBatch] throw. *)
Lemma compressBatch_throws (files : list FileRef) (w : W) (message : string) :
  outcome (compressBatch ext files outputDir options io jobId w) = Thrown message ->
  createArchive_requested options = true /\
  (1 < length files)%nat /\
  exists w' entries e,
    (archiver ext (path_join outputDir "compressed_files.zip") entries w').2 = Thrown e /\
    message = "Batch compression failed: " +:+ e.
Proof.
  destruct (batchLoop_returns ext outputDir options io jobId files 0 (length files) w)
    as (results & Hres & Hlen).
  rewrite (compressBatch_run ext outputDir options io jobId files w results Hres).
  cbv zeta. rewrite Hlen.
  destruct (1 <? length files)%nat eqn:Hmany; cbn [andb]; [|discriminate].
  destruct (createArchive_requested options); [|discriminate].
  destruct (archiver ext _ _ _) as [wz [[]|e]] eqn:Hz; cbn [fst snd];
    unfold outcome; cbn [snd]; [discriminate|].
  intros [= <-]. apply Nat.ltb_lt in Hmany.
  repeat split; [exact Hmany|]. eexists _, _, e. rewrite Hz. split; reflexivity.
Qed.


(** What a returned aggregate holds. *)
Lemma compressBatch_returned (files : list FileRef) (w : W) (result : BatchResult) :
  outcome (compressBatch ext files outputDir options io jobId w) = Returned result ->
  exists results,
    outcome (batchLoop ext files 0 (length files) outputDir options io jobId [] w)
    = Returned results /\
    length results = length files /\
    result = aggregate (length files) results (archive result).
Proof.
  destruct (batchLoop_returns ext outputDir options io jobId files 0 (length files) w)
    as (results & Hres & Hlen).
  rewrite (compressBatch_run _ _ _ _ _ _ _ _ Hres). cbv zeta.
  intros H. exists results. repeat split; try assumption.
  destruct ((1 <? length results)%nat && createArchive_requested options).
  - destruct (archiver ext _ _ _) as [wz [[]|e]]; cbn [fst snd] in H;
      unfold outcome in H; cbn [snd] in H; [|discriminate].
    injection H as <-. reflexivity.
  - unfold outcome in H; cbn [snd] in H. injection H as <-. reflexivity.
Qed.

End Isolation.











(** ** Progress percentages *)











(** ** The archive step *)

Section Keeps.
Context {W L : Type}.

Lemma keeps_ret {A} (a : A) : keeps (W:=W) (L:=L) (ret a).
Proof. intros s. reflexivity. Qed.

Lemma keeps_throw {A} (e : string) : keeps (W:=W) (L:=L) (A:=A) (throw e).
Proof. intros s. reflexivity. Qed.

Lemma keeps_emit (room event : string) (payload : Payload) :
  keeps (W:=W) (L:=L) (io_to_emit room event payload).
Proof. intros s. reflexivity. Qed.

Lemma keeps_bind {A B} (m : M (W * L) A) (k : A -> M (W * L) B) :
  keeps m -> (forall a, keeps (k a)) -> keeps (bind m k).
Proof.
  intros Hm Hk s. rewrite bind_run. specialize (Hm s).
  destruct (outcome (m s)) as [a|e]; [|exact Hm].
  cbv zeta. unfold world_of at 1. cbn [fst snd]. rewrite (Hk a). exact Hm.
Qed.

Lemma keeps_try_catch {A} (body : M (W * L) A) (handler : string -> M (W * L) A) :
  keeps body -> (forall e, keeps (handler e)) -> keeps (try_catch body handler).
Proof.
  intros Hm Hk s. rewrite try_catch_run. specialize (Hm s).
  destruct (outcome (body s)) as [a|e]; [exact Hm|].
  cbv zeta. unfold world_of at 1. cbn [fst snd]. rewrite (Hk e). exact Hm.
Qed.

Lemma keeps_when (c : bool) (m : M (W * L) unit) : keeps m -> keeps (when c m).
Proof. intros Hm. destruct c; [exact Hm | apply keeps_ret]. Qed.

Lemma keeps_call {A} (f : W -> W * Outcome A) : keeps (L:=L) (call (aside f)).
Proof.
  intros [w l]. unfold call, aside, world_of. cbn.
  destruct (f w) as [w1 r]. reflexivity.
Qed.

Lemma keeps_ask {A} (f : W -> W * A) : keeps (L:=L) (ask (aside f)).
Proof.
  intros [w l]. unfold ask, aside, world_of. cbn.
  destruct (f w) as [w1 r]. reflexivity.
Qed.

End Keeps.

Ltac keeps_step :=
  first
    [ apply keeps_ret | apply keeps_throw | apply keeps_emit
    | apply keeps_call | apply keeps_ask
    | apply keeps_when
    | apply keeps_bind; [|intro]
    | apply keeps_try_catch; [|intro]
    | match goal with
      | |- keeps (if ?c then _ else _) => destruct c
      | |- keeps (match ?x with _ => _ end) => destruct x
      | |- keeps (let '(_, _) := ?x in _) => destruct x
      end ].

Section Recorded.
Context {W : Type} (ext : External W).

Lemma keeps_emitStatus io jobId status message :
  keeps (emitStatus (W:=W * list ArchiveCall) io jobId status message).
Proof. unfold emitStatus. repeat keeps_step. Qed.

Lemma keeps_emitProgress io jobId data :
  keeps (emitProgress (W:=W * list ArchiveCall) io jobId data).
Proof. unfold emitProgress. repeat keeps_step. Qed.

Lemma keeps_getFileSize p : keeps (getFileSize (recording ext) p).
Proof. unfold getFileSize. repeat keeps_step. Qed.

Lemma keeps_generateUniqueFilename name suffix :
  keeps (generateUniqueFilename (recording ext) name suffix).
Proof. unfold generateUniqueFilename. repeat keeps_step. Qed.

Lemma keeps_compressImage inputPath outputDir options io jobId :
  keeps (compressImage (recording ext) inputPath outputDir options io jobId).
Proof.
  unfold compressImage. cbv zeta.
  repeat first [ apply keeps_emitStatus | apply keeps_emitProgress
               | apply keeps_getFileSize | apply keeps_generateUniqueFilename
               | keeps_step ].
Qed.

Lemma keeps_on_progress label io jobId percents :
  keeps (on_progress (W:=W * list ArchiveCall) label io jobId percents).
Proof.
  induction percents as [|p rest IH]; cbn [on_progress].
  - apply keeps_ret.
  - apply keeps_bind; [|intros _; exact IH].
    destruct (_ && _); [apply keeps_emitProgress | apply keeps_ret].
Qed.

Lemma keeps_on_end label inputPath outputPath fmt io jobId :
  keeps (on_end (recording ext) label inputPath outputPath fmt io jobId).
Proof.
  unfold on_end. cbv zeta.
  repeat first [ apply keeps_emitProgress | apply keeps_getFileSize | keeps_step ].
Qed.

Lemma keeps_compressVideo inputPath outputDir options io jobId :
  keeps (compressVideo (recording ext) inputPath outputDir options io jobId).
Proof.
  unfold compressVideo. cbv zeta.
  repeat first [ apply keeps_emitStatus | apply keeps_on_progress | apply keeps_on_end
               | apply keeps_generateUniqueFilename | keeps_step ].
Qed.

Lemma keeps_compressAudio inputPath outputDir options io jobId :
  keeps (compressAudio (recording ext) inputPath outputDir options io jobId).
Proof.
  unfold compressAudio. cbv zeta.
  repeat first [ apply keeps_emitStatus | apply keeps_on_progress | apply keeps_on_end
               | apply keeps_generateUniqueFilename | keeps_step ].
Qed.

Lemma keeps_compressPDF inputPath outputDir io jobId :
  keeps (compressPDF (recording ext) inputPath outputDir io jobId).
Proof.
  unfold compressPDF. cbv zeta.
  repeat first [ apply keeps_emitStatus | apply keeps_emitProgress
               | apply keeps_getFileSize | apply keeps_generateUniqueFilename
               | keeps_step ].
Qed.

Lemma keeps_dispatch fileType file outputDir options io jobId :
  keeps (dispatch (recording ext) fileType file outputDir options io jobId).
Proof.
  unfold dispatch.
  repeat first [ apply keeps_compressImage | apply keeps_compressVideo
               | apply keeps_compressAudio | apply keeps_compressPDF | keeps_step ].
Qed.

Lemma keeps_batchLoop todo i total outputDir options io jobId :
  keeps (batchLoop (recording ext) todo i total outputDir options io jobId []).
Proof.
  revert i. induction todo as [|file rest IH]; intros i s.
  - reflexivity.
  - rewrite batchLoop_cons. cbv zeta. unfold world_of at 1. cbn [fst snd].
    rewrite IH. apply keeps_dispatch.
Qed.

End Recorded.

Lemma path_join_nonempty (dir name : string) : path_join dir name <> "".
Proof. unfold path_join. destruct dir; discriminate. Qed.

Section Outputs.
Context {W : Type} (ext : External W).

Lemma compressImage_output inputPath outputDir options io jobId (w : W) r :
  outcome (compressImage ext inputPath outputDir options io jobId w) = Returned r ->
  exists name, compressedPath r = path_join outputDir name.
Proof.
  unfold compressImage. intros H. apply rethrow_returned in H. cbv zeta in H.
  invert_binds H.
  unfold ret, outcome in H. cbn [snd] in H. injection H as <-. cbn. eauto.
Qed.

Lemma on_end_output label inputPath outputPath fmt io jobId (w : W) r :
  outcome (on_end ext label inputPath outputPath fmt io jobId w) = Returned r ->
  compressedPath r = outputPath.
Proof.
  unfold on_end. intros H. cbv zeta in H. invert_binds H.
  unfold ret, outcome in H. cbn [snd] in H. injection H as <-. reflexivity.
Qed.

Lemma compressVideo_output inputPath outputDir options io jobId (w : W) r :
  outcome (compressVideo ext inputPath outputDir options io jobId w) = Returned r ->
  exists name, compressedPath r = path_join outputDir name.
Proof.
  unfold compressVideo. intros H. cbv zeta in H.
  apply bind_returned in H as (? & _ & H).
  apply bind_returned in H as (? & _ & H).
  destruct (if String.eqb _ "low" then _ else _) as [vb ab] in H.
  apply bind_returned in H as (run & _ & H).
  destruct run as [m|ps m|ps].
  - discriminate H.
  - apply bind_returned in H as (? & _ & H). discriminate H.
  - apply bind_returned in H as (? & _ & H).
    apply on_end_output in H. eauto.
Qed.

Lemma compressAudio_output inputPath outputDir options io jobId (w : W) r :
  outcome (compressAudio ext inputPath outputDir options io jobId w) = Returned r ->
  exists name, compressedPath r = path_join outputDir name.
Proof.
  unfold compressAudio. intros H. cbv zeta in H.
  apply bind_returned in H as (? & _ & H).
  apply bind_returned in H as (? & _ & H).
  apply bind_returned in H as (run & _ & H).
  destruct run as [m|ps m|ps].
  - discriminate H.
  - apply bind_returned in H as (? & _ & H). discriminate H.
  - apply bind_returned in H as (? & _ & H).
    apply on_end_output in H. eauto.
Qed.

Lemma compressPDF_output inputPath outputDir io jobId (w : W) r :
  outcome (compressPDF ext inputPath outputDir io jobId w) = Returned r ->
  (exists name, compressedPath r = path_join outputDir name) /\
  compressionRatio r = 0.
Proof.
  unfold compressPDF. intros H. apply rethrow_returned in H. cbv zeta in H.
  invert_binds H.
  unfold ret, outcome in H. cbn [snd] in H. injection H as <-. cbn. eauto.
Qed.

Lemma dispatch_output fileType file outputDir options io jobId (w : W) r :
  outcome (dispatch ext fileType file outputDir options io jobId w) = Returned r ->
  exists name, compressedPath r = path_join outputDir name.
Proof.
  unfold dispatch.
  destruct (String.eqb fileType "images");
    [apply compressImage_output|].
  destruct (String.eqb fileType "videos");
    [apply compressVideo_output|].
  destruct (String.eqb fileType "audio");
    [apply compressAudio_output|].
  destruct (String.eqb fileType "documents");
    [intros H; apply compressPDF_output in H; tauto|].
  discriminate.
Qed.

Lemma entry_has_output file outputDir options io jobId (w : W) :
  has_output
    (entry_of file
       (outcome (dispatch ext (getFileTypeCategory (filename file)) file outputDir
                   options io jobId w))).
Proof.
  destruct (outcome (dispatch ext _ file outputDir options io jobId w))
    as [r|e] eqn:H; cbn; [|exact I].
  apply dispatch_output in H as [name ->]. apply path_join_nonempty.
Qed.

Lemma batchLoop_outputs todo i total outputDir options io jobId (w : W) entries :
  outcome (batchLoop ext todo i total outputDir options io jobId [] w)
  = Returned entries ->
  Forall has_output entries.
Proof.
  revert i w entries. induction todo as [|file rest IH]; intros i w entries.
  - intros [= <-]. constructor.
  - rewrite batchLoop_cons. cbv zeta. unfold outcome at 1. cbn [snd].
    destruct (outcome (batchLoop ext rest (S i) total outputDir options io jobId [] _))
      as [tail|e] eqn:Hrest; [|discriminate].
    intros [= <-]. constructor; [apply entry_has_output | eapply IH; eassumption].
Qed.

End Outputs.

(** With an output for every success, the zip file gets the outputs of the
    successful entries and nothing else. *)
Lemma archive_entries_successes (results : list BatchEntry) :
  Forall has_output results ->
  archive_entries results = map zip_entry (successes results).
Proof.
  unfold archive_entries, successes.
  induction 1 as [|[r|name e] rest Hout _ IH]; cbn; [reflexivity| |exact IH].
  cbn in Hout. destruct (String.eqb_spec (compressedPath r) ""); [contradiction|].
  cbn. rewrite IH. reflexivity.
Qed.

(** C4, as the code has it.  The archiver is called once when the batch has
    more than one file, succeeded or not, and archiving was requested, and
    not at all otherwise; the zip file is given the outputs of the successful
    files and of no other. *)
Theorem archive_step_runs_for_two_or_more_files {W : Type} (ext : External W)
    (outputDir : string) (options : BatchOptions) (io : option Io)
    (jobId : option string) (submitted : list FileRef) (w : W) :
  let total := length submitted in
  let batch :=
    compressBatch (recording ext) submitted outputDir options io jobId (w, []) in
  exists results,
    outcome (batchLoop (recording ext) submitted 0 total outputDir options io jobId
               [] (w, []))
    = Returned results /\
    length results = total /\
    archive_calls batch
    = (if (1 <? total)%nat && createArchive_requested options
       then [ (path_join outputDir "compressed_files.zip",
               map zip_entry (successes results)) ]
       else []) /\
    (forall result, outcome batch = Returned result -> files result = results).
Proof.
  cbv zeta.
  destruct (batchLoop_returns (recording ext) outputDir options io jobId submitted 0
              (length submitted) (w, [])) as (results & Hloop & Hlen).
  exists results. split; [exact Hloop|]. split; [exact Hlen|].
  pose proof (batchLoop_outputs _ _ _ _ _ _ _ _ _ _ Hloop) as Hout.
  pose proof (keeps_batchLoop ext submitted 0 (length submitted) outputDir options io
                jobId (w, [])) as Hkeep.
  rewrite (compressBatch_run (recording ext) outputDir options io jobId submitted
             (w, []) results Hloop).
  cbv zeta. rewrite Hlen.
  destruct (batchLoop (recording ext) submitted 0 (length submitted) outputDir
              options io jobId [] (w, [])) as [[[wl calls] outl] ol].
  unfold world_of in Hkeep. cbn [fst snd] in Hkeep. subst calls.
  unfold archive_calls, world_of, outcome, emitted in *. cbn [fst snd] in *.
  destruct ((1 <? length submitted)%nat && createArchive_requested options).
  - cbn [recording archiver fst snd app].
    rewrite archive_entries_successes by exact Hout.
    destruct (archiver ext _ _ wl) as [wz [[]|e]]; cbn [fst snd];
      (split; [reflexivity|]).
    + intros result [= <-]. reflexivity.
    + discriminate.
  - split; [reflexivity|]. intros result [= <-]. reflexivity.
Qed.

(** C4 refuted as stated: of two files one is unsupported, so one file
    succeeded; the archive is made all the same, with that one output. *)
Lemma archive_made_after_one_success :
  let options := default_options true in
  let submitted := [upload "a.png"; upload "notes.txt"] in
  let batch :=
    compressBatch (recording calm) submitted "temp" options None None (0%nat, []) in
  exists a,
    outcome (batchLoop (recording calm) submitted 0 2 "temp" options None None []
               (0%nat, []))
    = Returned [Compressed a; Failure "notes.txt" "Unsupported file type: unknown"] /\
    spec_archive_condition options
      [Compressed a; Failure "notes.txt" "Unsupported file type: unknown"] = false /\
    archive_calls batch = [ ("temp/compressed_files.zip", [zip_entry a]) ] /\
    (exists result, outcome batch = Returned result /\
                    archive result = Some "temp/compressed_files.zip" /\
                    successfulFiles result = 1%nat).
Proof.
  cbv zeta. eexists. split; [vm_compute; reflexivity|].
  split; [reflexivity|]. split; [vm_compute; reflexivity|].
  eexists. split; [vm_compute; reflexivity|]. split; reflexivity.
Qed.

(** ** The totals of the batch route *)







(** ** The progress channel *)

Lemma inbox_deliver (e : Emit) (srv : Server) (socket : string) :
  inbox (deliver e srv) socket
  = if decide (socket ∈ members srv (room e)) then inbox srv socket ++ [e]
    else inbox srv socket.
Proof.
  unfold inbox, deliver. cbn [sent].
  generalize (members srv (room e)).
  apply (set_fold_ind_L
           (fun acc (X : gset string) =>
              default [] (acc !! socket)
              = if decide (socket ∈ X) then default [] (sent srv !! socket) ++ [e]
                else default [] (sent srv !! socket))).
  - destruct (decide (socket ∈ (∅ : gset string))) as [Hin|_]; [set_solver | reflexivity].
  - intros x X acc Hx IH.
    destruct (decide (socket = x)) as [->|Hne].
    + rewrite lookup_insert_eq. cbn.
      destruct (decide (x ∈ X)) as [|_]; [contradiction|].
      rewrite IH.
      destruct (decide (x ∈ {[x]} ∪ X)) as [_|Hout]; [reflexivity | set_solver].
    + rewrite lookup_insert_ne by congruence. rewrite IH.
      destruct (decide (socket ∈ X)), (decide (socket ∈ {[x]} ∪ X));
        try reflexivity; set_solver.
Qed.








Section Helpers.
Context {W : Type}.


End Helpers.










(** * Further properties of the code *)

(** ** Ratios *)




(** ** File types *)

Lemma elem_of_all_extensions (x : string) (table : list (string * list string)) :
  x ∈ concat (map snd table) <->
  exists category extensions, (category, extensions) ∈ table /\ x ∈ extensions.
Proof.
  induction table as [|[c exts] rest IH]; cbn.
  - split; [intros H; inversion H | intros (? & ? & H & _); inversion H].
  - rewrite elem_of_app, IH. split.
    + intros [Hx|(c' & e' & Hin & Hx)].
      * exists c, exts. split; [apply elem_of_cons; left; reflexivity | exact Hx].
      * exists c', e'. split; [apply elem_of_cons; right; exact Hin | exact Hx].
    + intros (c' & e' & Hin & Hx). apply elem_of_cons in Hin as [[= -> ->]|Hin].
      * left. exact Hx.
      * right. exists c', e'. split; assumption.
Qed.

Lemma find_category_first (x : string) (table : list (string * list string))
    (category : string) (extensions : list string) :
  NoDup (concat (map snd table)) ->
  (category, extensions) ∈ table -> x ∈ extensions ->
  find_category x table = category.
Proof.
  induction table as [|[c exts] rest IH]; cbn; intros Hdup Hin Hx.
  - inversion Hin.
  - apply NoDup_app in Hdup as (_ & Hdisjoint & Hrest).
    unfold includes. apply elem_of_cons in Hin as [[= -> ->]|Hin].
    + rewrite bool_decide_eq_true_2 by exact Hx. reflexivity.
    + case_bool_decide as Hhere.
      * exfalso. apply (Hdisjoint x Hhere).
        apply elem_of_all_extensions. exists category, extensions. split; assumption.
      * apply IH; assumption.
Qed.

Lemma supported_types_distinct : NoDup (concat (map snd SUPPORTED_TYPES)).
Proof. apply (bool_decide_unpack _). vm_compute. exact I. Qed.

Lemma supported_known (name : string) :
  isFileTypeSupported name = true <-> getFileTypeCategory name <> "unknown".
Proof.
  unfold isFileTypeSupported, includes, getAllSupportedExtensions.
  rewrite bool_decide_eq_true, elem_of_all_extensions.
  rewrite <- unsupported_unknown. unfold unsupported. split.
  - intros (c & e & Hin & Hx) Hnone. exact (Hnone c e Hin Hx).
  - intros Hsome.
    destruct (decide (toLowerCase (extname name)
                        ∈ concat (map snd SUPPORTED_TYPES))) as [Hin|Hout].
    + apply elem_of_all_extensions. exact Hin.
    + exfalso. apply Hsome. intros c e Hin Hx. apply Hout.
      apply elem_of_all_extensions. exists c, e. split; assumption.
Qed.

(** X2. The two classifiers of [fileUtils.js] agree: a file name is supported
    exactly when its category is not ['unknown'], and its category is the
    one whose list holds its lower-cased extension; no extension is listed
    twice, so the order of the table does not matter. *)
Theorem supported_iff_categorised (name category : string) (extensions : list string) :
  (isFileTypeSupported name = true <-> getFileTypeCategory name <> "unknown") /\
  ((category, extensions) ∈ SUPPORTED_TYPES ->
   toLowerCase (extname name) ∈ extensions ->
   getFileTypeCategory name = category /\ isFileTypeSupported name = true) /\
  getFileTypeCategory name ∈ ["images"; "videos"; "audio"; "documents"; "unknown"].
Proof.
  pose proof (supported_known name) as Hsupp.
  split; [exact Hsupp|]. split.
  - intros Hin Hx.
    assert (Hcat : getFileTypeCategory name = category).
    { unfold getFileTypeCategory.
      eapply find_category_first; [apply supported_types_distinct | exact Hin | exact Hx]. }
    split; [exact Hcat|]. apply Hsupp. rewrite Hcat.
    intros ->. revert Hin. unfold SUPPORTED_TYPES.
    rewrite !elem_of_cons. intros [H|[H|[H|[H|H]]]]; try discriminate H. inversion H.
  - unfold getFileTypeCategory, SUPPORTED_TYPES. cbn [find_category].
    repeat (destruct (includes _ _);
            [rewrite !elem_of_cons; tauto|]).
    rewrite !elem_of_cons. tauto.
Qed.

(** X2 on [Holiday.JPG]. *)
Lemma supported_iff_categorised_on_a_jpg :
  getFileTypeCategory "Holiday.JPG" = "images" /\
  isFileTypeSupported "Holiday.JPG" = true.
Proof.
  refine (proj1 (proj2 (supported_iff_categorised "Holiday.JPG" "images"
                          [".jpg"; ".jpeg"; ".png"; ".webp"; ".tiff"; ".tif"; ".bmp"]))
            _ _).
  - apply elem_of_cons. left. reflexivity.
  - apply (bool_decide_unpack _). vm_compute. exact I.
Defined.

(** ** Where the packets go *)

Section AllEmitted.
Context {W : Type} (P : Emit -> Prop).

Lemma all_ret {A} (a : A) : all_emitted (W:=W) P (ret a).
Proof. intros w. constructor. Qed.

Lemma all_throw {A} (e : string) : all_emitted (W:=W) (A:=A) P (throw e).
Proof. intros w. constructor. Qed.

Lemma all_call {A} (f : W -> W * Outcome A) : all_emitted P (call f).
Proof. intros w. unfold call, emitted. destruct (f w). constructor. Qed.

Lemma all_ask {A} (f : W -> W * A) : all_emitted P (ask f).
Proof. intros w. unfold ask, emitted. destruct (f w). constructor. Qed.

Lemma all_emit (room event : string) (payload : Payload) :
  P {| room := room; event := event; payload := payload |} ->
  all_emitted (W:=W) P (io_to_emit room event payload).
Proof. intros HP w. repeat constructor. exact HP. Qed.

Lemma all_bind {A B} (m : M W A) (k : A -> M W B) :
  all_emitted P m -> (forall a, all_emitted P (k a)) -> all_emitted P (bind m k).
Proof.
  intros Hm Hk w. rewrite bind_run. specialize (Hm w).
  destruct (outcome (m w)) as [a|e]; [|exact Hm].
  cbv zeta. unfold emitted at 1. cbn [fst snd].
  apply Forall_app. split; [exact Hm | apply Hk].
Qed.

Lemma all_try_catch {A} (body : M W A) (handler : string -> M W A) :
  all_emitted P body -> (forall e, all_emitted P (handler e)) ->
  all_emitted P (try_catch body handler).
Proof.
  intros Hm Hk w. rewrite try_catch_run. specialize (Hm w).
  destruct (outcome (body w)) as [a|e]; [exact Hm|].
  cbv zeta. unfold emitted at 1. cbn [fst snd].
  apply Forall_app. split; [exact Hm | apply Hk].
Qed.

Lemma all_when (c : bool) (m : M W unit) :
  all_emitted P m -> all_emitted P (when c m).
Proof. intros Hm. destruct c; [exact Hm | apply all_ret]. Qed.

End AllEmitted.

Ltac all_step :=
  first
    [ apply all_ret | apply all_throw | apply all_call | apply all_ask
    | apply all_when
    | apply all_bind; [|intro]
    | apply all_try_catch; [|intro]
    | match goal with
      | |- all_emitted _ (if ?c then _ else _) => destruct c
      | |- all_emitted _ (match ?x with _ => _ end) => destruct x
      | |- all_emitted _ (let '(_, _) := ?x in _) => destruct x
      end ].

Section UnderJob.
Context {W : Type} (ext : External W) (io : option Io) (jobId : option string).

Lemma helper_under_job (event : string) (payload : Payload) :
  all_emitted (W:=W) (under_job io jobId)
    (if negb (truthy_io io) || negb (truthy_string jobId) then ret tt
     else io_to_emit (default "" jobId) event payload).
Proof.
  destruct (truthy_io io) eqn:Hio, (truthy_string jobId) eqn:Hjob; cbn;
    try apply all_ret.
  apply all_emit. repeat split; assumption.
Qed.

Lemma emitStatus_under_job status message :
  all_emitted (W:=W) (under_job io jobId) (emitStatus io jobId status message).
Proof. apply helper_under_job. Qed.

Lemma emitProgress_under_job data :
  all_emitted (W:=W) (under_job io jobId) (emitProgress io jobId data).
Proof. apply helper_under_job. Qed.

Lemma getFileSize_silent (P : Emit -> Prop) p : all_emitted P (getFileSize ext p).
Proof. unfold getFileSize. repeat all_step. Qed.

Lemma generateUniqueFilename_silent (P : Emit -> Prop) name suffix :
  all_emitted P (generateUniqueFilename ext name suffix).
Proof. unfold generateUniqueFilename. repeat all_step. Qed.

Ltac under_job_step :=
  first [ apply emitStatus_under_job | apply emitProgress_under_job
        | apply getFileSize_silent | apply generateUniqueFilename_silent
        | all_step ].

Lemma compressImage_under_job inputPath outputDir options :
  all_emitted (under_job io jobId)
    (compressImage ext inputPath outputDir options io jobId).
Proof. unfold compressImage. cbv zeta. repeat under_job_step. Qed.

Lemma on_progress_under_job label percents :
  all_emitted (W:=W) (under_job io jobId) (on_progress label io jobId percents).
Proof.
  induction percents as [|p rest IH]; cbn [on_progress].
  - apply all_ret.
  - apply all_bind; [|intros _; exact IH].
    destruct (_ && _); [apply emitProgress_under_job | apply all_ret].
Qed.

Lemma on_end_under_job label inputPath outputPath fmt :
  all_emitted (under_job io jobId)
    (on_end ext label inputPath outputPath fmt io jobId).
Proof. unfold on_end. cbv zeta. repeat under_job_step. Qed.

Lemma compressVideo_under_job inputPath outputDir options :
  all_emitted (under_job io jobId)
    (compressVideo ext inputPath outputDir options io jobId).
Proof.
  unfold compressVideo. cbv zeta.
  repeat first [ apply on_progress_under_job | apply on_end_under_job
               | under_job_step ].
Qed.

Lemma compressAudio_under_job inputPath outputDir options :
  all_emitted (under_job io jobId)
    (compressAudio ext inputPath outputDir options io jobId).
Proof.
  unfold compressAudio. cbv zeta.
  repeat first [ apply on_progress_under_job | apply on_end_under_job
               | under_job_step ].
Qed.

Lemma compressPDF_under_job inputPath outputDir :
  all_emitted (under_job io jobId) (compressPDF ext inputPath outputDir io jobId).
Proof. unfold compressPDF. cbv zeta. repeat under_job_step. Qed.

Lemma dispatch_under_job fileType file outputDir options :
  all_emitted (under_job io jobId)
    (dispatch ext fileType file outputDir options io jobId).
Proof.
  unfold dispatch.
  repeat first [ apply compressImage_under_job | apply compressVideo_under_job
               | apply compressAudio_under_job | apply compressPDF_under_job
               | all_step ].
Qed.

Lemma processFile_under_job i total file outputDir options :
  all_emitted (under_job io jobId)
    (processFile ext i total file outputDir options io jobId).
Proof.
  unfold processFile. cbv zeta.
  repeat first [ apply dispatch_under_job | under_job_step ].
Qed.

Lemma batchLoop_under_job todo i total outputDir options results :
  all_emitted (under_job io jobId)
    (batchLoop ext todo i total outputDir options io jobId results).
Proof.
  revert i results. induction todo as [|file rest IH]; intros i results;
    cbn [batchLoop].
  - apply all_ret.
  - apply all_bind; [apply processFile_under_job | intros entry; apply IH].
Qed.

Lemma compressBatch_under_job submitted outputDir options :
  all_emitted (under_job io jobId)
    (compressBatch ext submitted outputDir options io jobId).
Proof.
  unfold compressBatch, createArchive. cbv zeta.
  repeat first [ apply batchLoop_under_job | under_job_step ].
Qed.

End UnderJob.

(** X3. Whatever the collaborators do, every packet of a batch is published
    under the job id [compressBatch] was given, by each compressor as by the
    loop itself; and when it was given no server handle or no usable job id
    it publishes nothing at all. *)
Theorem batch_publishes_under_its_job_id {W : Type} (ext : External W)
    (submitted : list FileRef) (outputDir : string) (options : BatchOptions)
    (io : option Io) (jobId : option string) (w : W) :
  let batch := compressBatch ext submitted outputDir options io jobId w in
  Forall (fun e => room e = default "" jobId) (emitted batch) /\
  (truthy_io io && truthy_string jobId = false -> emitted batch = []).
Proof.
  cbv zeta.
  pose proof (compressBatch_under_job ext io jobId submitted outputDir options w) as H.
  split.
  - eapply Forall_impl; [exact H|]. intros e (Hroom & _). exact Hroom.
  - intros Hoff.
    destruct (emitted (compressBatch ext submitted outputDir options io jobId w))
      as [|e rest]; [reflexivity|].
    apply Forall_cons in H as [(_ & Hio & Hjob) _].
    rewrite Hio, Hjob in Hoff. discriminate.
Qed.

(** X3 on a batch run without a server handle. *)
Lemma batch_publishes_under_its_job_id_without_io :
  emitted (compressBatch calm [upload "a.png"; upload "clip.mp4"] "temp"
             (default_options true) None (Some "job-1") 0%nat) = [].
Proof.
  exact (proj2 (batch_publishes_under_its_job_id calm
                  [upload "a.png"; upload "clip.mp4"] "temp" (default_options true)
                  None (Some "job-1") 0%nat) eq_refl).
Defined.

(** ** What the entries of a batch hold *)

Section Entries.
Context {W : Type} (ext : External W).









End Entries.



(** ** How a batch ends *)

(** X5. A returned aggregate names the archive exactly when the batch had
    more than one file and archiving was requested, always as
    [compressed_files.zip] in the output directory.  The packets of the batch
    are then the opening status, those of the loop, ["Creating archive..."]
    (95) when an archive was made, and last the closing 100 percent. *)
Theorem returned_aggregate_and_archive {W : Type} (ext : External W)
    (submitted : list FileRef) (outputDir : string) (options : BatchOptions)
    (io : option Io) (jobId : option string) (w : W) (result : BatchResult) :
  let total := length submitted in
  let batch := compressBatch ext submitted outputDir options io jobId w in
  let loop := batchLoop ext submitted 0 total outputDir options io jobId [] w in
  let archived := (1 <? total)%nat && createArchive_requested options in
  outcome batch = Returned result ->
  archive result
  = (if archived then Some (path_join outputDir "compressed_files.zip") else None) /\
  outcome loop = Returned (files result) /\
  emitted batch
  = batch_started io jobId total ++ emitted loop
      ++ (if archived then creating_archive io jobId else [])
      ++ batch_completed io jobId.
Proof.
  cbv zeta.
  destruct (batchLoop_returns ext outputDir options io jobId submitted 0
              (length submitted) w) as (results & Hloop & Hlen).
  rewrite (compressBatch_run ext outputDir options io jobId submitted w results Hloop).
  cbv zeta. rewrite Hlen.
  destruct ((1 <? length submitted)%nat && createArchive_requested options).
  - destruct (archiver ext _ _ _) as [wz [[]|e]]; cbn [fst snd];
      unfold outcome at 1, emitted at 1; cbn [fst snd]; [|discriminate].
    intros [= <-]. cbn [archive files aggregate]. repeat split. exact Hloop.
  - unfold outcome at 1, emitted at 1; cbn [fst snd].
    intros [= <-]. cbn [archive files aggregate]. repeat split. exact Hloop.
Qed.

(** X5 on two images with archiving requested. *)
Lemma returned_aggregate_and_archive_on_two_images :
  exists result,
    outcome (compressBatch calm [upload "a.png"; upload "b.jpg"] "temp"
               (default_options true) (Some socket_io) (Some "job-1") 0%nat)
    = Returned result /\
    archive result = Some "temp/compressed_files.zip".
Proof.
  assert (H : exists result,
            outcome (compressBatch calm [upload "a.png"; upload "b.jpg"] "temp"
                       (default_options true) (Some socket_io) (Some "job-1") 0%nat)
            = Returned result).
  { eexists. vm_compute. reflexivity. }
  destruct H as [result H]. exists result. split; [exact H|].
  exact (proj1 (returned_aggregate_and_archive calm _ "temp" (default_options true)
                  (Some socket_io) (Some "job-1") 0%nat result H)).
Defined.

Section InFlight.
Context {W : Type} (ext : External W) (io : option Io) (jobId : option string).

Lemma emitStatus_in_flight status message :
  all_emitted (W:=W) in_flight (emitStatus io jobId status message).
Proof.
  unfold emitStatus. destruct (_ || _); [apply all_ret|].
  apply all_emit. left. reflexivity.
Qed.

Lemma emitProgress_in_flight data :
  all_emitted (W:=W) in_flight (emitProgress io jobId data).
Proof.
  unfold emitProgress. destruct (_ || _); [apply all_ret|].
  apply all_emit. right. reflexivity.
Qed.

Ltac in_flight_step :=
  first [ apply emitStatus_in_flight | apply emitProgress_in_flight
        | apply getFileSize_silent | apply generateUniqueFilename_silent
        | all_step ].

Lemma on_progress_in_flight label percents :
  all_emitted (W:=W) in_flight (on_progress label io jobId percents).
Proof.
  induction percents as [|p rest IH]; cbn [on_progress].
  - apply all_ret.
  - apply all_bind; [|intros _; exact IH].
    destruct (_ && _); [apply emitProgress_in_flight | apply all_ret].
Qed.

Lemma dispatch_in_flight fileType file outputDir options :
  all_emitted in_flight (dispatch ext fileType file outputDir options io jobId).
Proof.
  unfold dispatch, compressImage, compressVideo, compressAudio, compressPDF, on_end.
  cbv zeta.
  repeat first [ apply on_progress_in_flight | in_flight_step ].
Qed.

Lemma batchLoop_in_flight todo i total outputDir options results :
  all_emitted in_flight
    (batchLoop ext todo i total outputDir options io jobId results).
Proof.
  revert i results. induction todo as [|file rest IH]; intros i results;
    cbn [batchLoop].
  - apply all_ret.
  - apply all_bind; [|intros entry; apply IH].
    unfold processFile. cbv zeta.
    repeat first [ apply dispatch_in_flight | in_flight_step ].
Qed.

Lemma compressBatch_in_flight submitted outputDir options :
  all_emitted in_flight (compressBatch ext submitted outputDir options io jobId).
Proof.
  unfold compressBatch, createArchive. cbv zeta.
  repeat first [ apply batchLoop_in_flight | in_flight_step ].
Qed.

End InFlight.

Section BatchRoute.
Context {W : Type} (ext : External W).

Lemma validateFileExists_run (p : string) (w : W) :
  validateFileExists ext p w
  = ((fs_access ext p w).1, [],
     Returned match (fs_access ext p w).2 with
              | Returned _ => true
              | Thrown _ => false
              end).
Proof.
  unfold validateFileExists, try_catch, bind, call, ret.
  destruct (fs_access ext p w) as [w1 [[]|e]]; reflexivity.
Qed.

(** The validation loop publishes nothing and finds a file of the list. *)
Lemma first_missing_run (submitted : list FileRef) (w : W) :
  exists found,
    outcome (first_missing ext submitted w) = Returned found /\
    emitted (first_missing ext submitted w) = [] /\
    (forall file, found = Some file -> file ∈ submitted).
Proof.
  revert w. induction submitted as [|file rest IH]; intros w.
  - exists None. repeat split. discriminate.
  - cbn [first_missing]. unfold bind. rewrite validateFileExists_run.
    cbv beta iota.
    destruct ((fs_access ext (path file) w).2) as [[]|e]; cbn [negb].
    + destruct (IH (fs_access ext (path file) w).1) as (found & Hout & Hem & Hin).
      destruct (first_missing ext rest _) as [[w2 out2] r].
      unfold outcome, emitted in *. cbn [fst snd] in *. subst.
      exists found. repeat split. intros f Hf. apply elem_of_cons. right. auto.
    + exists (Some file). repeat split.
      intros f [= <-]. apply elem_of_cons. left. reflexivity.
Qed.

Lemma emitCompletion_packets io jobId response (w : W) :
  when (truthy_io io) (emitCompletion io (Some jobId) response) w
  = (w, job_packets io (Some jobId) "completed" (CompletedPayload response),
     Returned tt).
Proof.
  unfold when, emitCompletion, job_packets.
  destruct (truthy_io io), (truthy_string (Some jobId)); reflexivity.
Qed.

Lemma emitError_packets io jobId error (w : W) :
  when (truthy_io io && truthy_string (Some jobId))
    (emitError io (Some jobId) error) w
  = (w, job_packets io (Some jobId) "error" (ErrorPayload error), Returned tt).
Proof.
  unfold when, emitError, job_packets.
  destruct (truthy_io io), (truthy_string (Some jobId)); reflexivity.
Qed.

Lemma started_packets io jobId message (w : W) :
  when (truthy_io io) (emitStatus io (Some jobId) "started" message) w
  = (w, job_packets io (Some jobId) "status" (StatusPayload "started" message),
     Returned tt).
Proof.
  unfold when, emitStatus, job_packets.
  destruct (truthy_io io), (truthy_string (Some jobId)); reflexivity.
Qed.

Lemma job_packets_in_flight io jobId payload :
  Forall in_flight (job_packets io jobId "status" payload).
Proof.
  unfold job_packets. destruct (_ && _); repeat constructor.
Qed.

End BatchRoute.

(** X6. The batch route never throws and ends a job once.  It answers 400 or
    404 without publishing anything (404 names a file of the request); it
    answers with the response after publishing ['completed'] with that
    response as its last packet; and it hands an error to [next] after
    publishing ['error'] with that message as its last packet.  Every packet
    before the last one is a ['status'] or a ['progress'] packet. *)
Theorem batch_route_ends_once {W : Type} (ext : External W) (tempDir : string)
    (io : option Io) (body : BatchRequest) (w : W) :
  let run := postBatch ext tempDir io body w in
  let jobId := Some (uuidv4 ext w).2 in
  exists reply,
    outcome run = Returned reply /\
    match reply with
    | Status400 error =>
        error = "Files array is required" /\ emitted run = [] /\ world_of run = w
    | Status404 error =>
        emitted run = [] /\
        exists submitted file,
          req_files body = Some submitted /\ file ∈ submitted /\
          error = "File not found: " +:+ path file
    | Json response =>
        exists earlier,
          emitted run
          = earlier ++ job_packets io jobId "completed" (CompletedPayload response) /\
          Forall in_flight earlier
    | Next error =>
        exists earlier,
          emitted run
          = earlier ++ job_packets io jobId "error" (ErrorPayload error) /\
          Forall in_flight earlier
    end.
Proof.
  cbv zeta.
  remember (postBatch ext tempDir io body w) as run eqn:Hrun.
  unfold postBatch in Hrun.
  destruct (req_files body) as [[|f fs]|] eqn:Hreq.
  - subst run. exists (Status400 "Files array is required"). repeat split.
  - unfold generateJobId, ask in Hrun. unfold bind at 1 in Hrun.
    destruct (uuidv4 ext w) as [w1 jobId]. cbn [snd]. cbv beta iota in Hrun.
    unfold try_catch in Hrun. unfold bind at 1 in Hrun.
    destruct (first_missing_run ext (f :: fs) w1) as (found & Hout & Hem & Hin).
    destruct (first_missing ext (f :: fs) w1) as [[w2 out2] r2].
    unfold outcome, emitted in Hout, Hem. cbn [fst snd] in Hout, Hem. subst r2 out2.
    cbv beta iota in Hrun.
    destruct found as [file|].
    + unfold ret in Hrun. cbn [app] in Hrun. subst run.
      exists (Status404 ("File not found: " +:+ path file)).
      unfold outcome, emitted. cbn [fst snd].
      split; [reflexivity|]. split; [reflexivity|].
      exists (f :: fs), file.
      split; [reflexivity|]. split; [apply Hin; reflexivity | reflexivity].
    + unfold bind at 1, call in Hrun.
      destruct (fs_ensureDir ext tempDir w2) as [w3 [[]|e]]; cbv beta iota in Hrun.
      * unfold bind at 1 in Hrun. cbv beta in Hrun.
        rewrite started_packets in Hrun.
        cbv beta iota in Hrun. unfold bind at 1 in Hrun. cbv beta in Hrun.
        pose proof (compressBatch_in_flight ext io (Some jobId) (f :: fs) tempDir
                      {| image := req_image body; video := req_video body;
                         audio := req_audio body;
                         createArchive_requested := req_createArchive body |} w3)
          as Hflight.
        destruct (compressBatch ext (f :: fs) tempDir _ io (Some jobId) w3)
          as [[w4 out4] [result|e]]; unfold emitted in Hflight; cbn [fst snd] in Hflight;
          cbv beta iota zeta in Hrun.
        -- unfold bind at 1 in Hrun. cbv beta in Hrun.
           rewrite emitCompletion_packets in Hrun.
           unfold ret in Hrun. cbv beta iota in Hrun. subst run.
           exists (Json (batchResponse jobId result)).
           unfold outcome, emitted. cbn [fst snd app]. split; [reflexivity|].
           rewrite ?app_nil_r, ?app_assoc. eexists. split; [reflexivity|].
           apply Forall_app. split; [apply job_packets_in_flight | exact Hflight].
        -- unfold bind in Hrun. cbv beta in Hrun.
           rewrite emitError_packets in Hrun.
           unfold ret in Hrun. cbv beta iota in Hrun. subst run.
           exists (Next e).
           unfold outcome, emitted. cbn [fst snd app]. split; [reflexivity|].
           rewrite ?app_nil_r, ?app_assoc. eexists. split; [reflexivity|].
           apply Forall_app. split; [apply job_packets_in_flight | exact Hflight].
      * unfold bind in Hrun. cbv beta in Hrun.
        rewrite emitError_packets in Hrun.
        unfold ret in Hrun. cbv beta iota in Hrun. subst run.
        exists (Next e).
        unfold outcome, emitted. cbn [fst snd app]. split; [reflexivity|].
        exists []. rewrite ?app_nil_r. split; [reflexivity | constructor].
  - subst run. exists (Status400 "Files array is required"). repeat split.
Qed.

(** ** Subscriptions *)

Lemma members_leave_iff (socket jobId : string) (srv : Server) (s r : string) :
  s ∈ members (leave_job socket jobId srv) r <->
  s ∈ members srv r /\ ~ (s = socket /\ r = jobId).
Proof.
  unfold members, leave_job. cbn [rooms].
  destruct (rooms srv !! jobId) as [room|] eqn:Hroom.
  - unfold without. destruct (decide (room ∖ {[socket]} = ∅)) as [Hempty|Hsome].
    + destruct (decide (jobId = r)) as [->|Hne].
      * rewrite lookup_delete_eq, Hroom. cbn. set_solver.
      * rewrite lookup_delete_ne by exact Hne. split; [|tauto].
        intros H. split; [exact H|]. intros [_ ->]. contradiction.
    + destruct (decide (jobId = r)) as [->|Hne].
      * rewrite lookup_insert_eq, Hroom. cbn. set_solver.
      * rewrite lookup_insert_ne by exact Hne. split; [|tauto].
        intros H. split; [exact H|]. intros [_ ->]. contradiction.
  - split; [|tauto]. intros H. split; [exact H|]. intros [_ ->].
    rewrite Hroom in H. cbn in H. set_solver.
Qed.

Lemma members_disconnect_iff (socket : string) (srv : Server) (s r : string) :
  s ∈ members (disconnect socket srv) r <-> s ∈ members srv r /\ s <> socket.
Proof.
  unfold members, disconnect. cbn [rooms]. rewrite lookup_omap.
  destruct (rooms srv !! r) as [room|]; cbn; [|set_solver].
  unfold without. destruct (decide (room ∖ {[socket]} = ∅)); cbn; set_solver.
Qed.

Lemma members_deliver (e : Emit) (srv : Server) (r : string) :
  members (deliver e srv) r = members srv r.
Proof. reflexivity. Qed.






(** X8. Leaving a job room, or disconnecting, stops the delivery to that
    socket and to no other: once [socket] has left, a packet published under
    the job is not sent to it and is still sent to another member; once it
    has disconnected it is in no room at all and is no longer counted among
    the active connections. *)
Theorem leaving_stops_delivery_to_that_socket_only (srv : Server)
    (socket other jobId : string) (e : Emit) :
  socket <> other ->
  room e = jobId ->
  other ∈ members srv jobId ->
  let left := leave_job socket jobId srv in
  let gone := disconnect socket srv in
  ((socket ∉ members left jobId) /\
   (forall r, r <> jobId -> (socket ∈ members left r <-> socket ∈ members srv r)) /\
   inbox (deliver e left) socket = inbox srv socket /\
   inbox (deliver e left) other = inbox srv other ++ [e]) /\
  ((forall r, socket ∉ members gone r) /\
   (socket ∉ activeConnections gone) /\
   (forall r, other ∈ members gone r <-> other ∈ members srv r) /\
   inbox (deliver e gone) socket = inbox srv socket /\
   inbox (deliver e gone) other = inbox srv other ++ [e]).
Proof.
  intros Hne He Hother. cbv zeta. split.
  - assert (Hout : socket ∉ members (leave_job socket jobId srv) jobId).
    { rewrite members_leave_iff. tauto. }
    split; [exact Hout|]. split; [|split].
    + intros r Hr. rewrite members_leave_iff. tauto.
    + rewrite inbox_deliver, He.
      destruct (decide (socket ∈ members (leave_job socket jobId srv) jobId));
        [contradiction | reflexivity].
    + rewrite inbox_deliver, He.
      destruct (decide (other ∈ members (leave_job socket jobId srv) jobId))
        as [_|Hno]; [reflexivity|].
      exfalso. apply Hno. rewrite members_leave_iff. split; [exact Hother|].
      intros [-> _]. contradiction.
  - assert (Hout : forall r, socket ∉ members (disconnect socket srv) r).
    { intros r. rewrite members_disconnect_iff. tauto. }
    split; [exact Hout|]. split; [|split; [|split]].
    + unfold disconnect. cbn. set_solver.
    + intros r. rewrite members_disconnect_iff. split; [tauto|].
      intros H. split; [exact H | congruence].
    + rewrite inbox_deliver.
      destruct (decide (socket ∈ members (disconnect socket srv) (room e)))
        as [Hin|_]; [exfalso; exact (Hout _ Hin) | reflexivity].
    + rewrite inbox_deliver, He.
      destruct (decide (other ∈ members (disconnect socket srv) jobId))
        as [_|Hno]; [reflexivity|].
      exfalso. apply Hno. rewrite members_disconnect_iff.
      split; [exact Hother | congruence].
Qed.

(** X8 for two clients of job A, of which the first leaves. *)
Lemma leaving_stops_delivery_to_that_socket_only_for_two_clients :
  let srv := run empty_server
               [Connect "client-1"; JoinJob "client-1" "job-A";
                Connect "client-2"; JoinJob "client-2" "job-A"] in
  let done := {| room := "job-A"; event := "progress";
                 payload := ProgressPayload 100 "Batch compression completed!" |} in
  inbox (deliver done (leave_job "client-1" "job-A" srv)) "client-1"
  = inbox srv "client-1" /\
  inbox (deliver done (leave_job "client-1" "job-A" srv)) "client-2"
  = inbox srv "client-2" ++ [done].
Proof.
  cbv zeta.
  assert (Hne : "client-1" <> "client-2") by discriminate.
  assert (Hin : "client-2" ∈ members
                  (run empty_server
                     [Connect "client-1"; JoinJob "client-1" "job-A";
                      Connect "client-2"; JoinJob "client-2" "job-A"]) "job-A").
  { apply (bool_decide_unpack _). vm_compute. exact I. }
  pose proof (leaving_stops_delivery_to_that_socket_only _ "client-1" "client-2"
                "job-A"
                {| room := "job-A"; event := "progress";
                   payload := ProgressPayload 100 "Batch compression completed!" |}
                Hne eq_refl Hin)
    as ((_ & _ & Hfirst & Hsecond) & _).
  split; [exact Hfirst | exact Hsecond].
Defined.

Lemma members_join_set (socket jobId : string) (srv : Server) (r : string) :
  members (join_job socket jobId srv) r
  = if decide (jobId = r) then {[socket]} ∪ members srv r else members srv r.
Proof.
  unfold members, join_job. cbn [rooms].
  destruct (decide (jobId = r)) as [->|Hne].
  - rewrite lookup_insert_eq. reflexivity.
  - rewrite lookup_insert_ne by exact Hne. reflexivity.
Qed.



(** ** Active connections *)

Lemma run_snoc (srv : Server) (trace : list Action) (a : Action) :
  run srv (trace ++ [a]) = step (run srv trace) a.
Proof. unfold run. rewrite fold_left_app. reflexivity. Qed.

Lemma active_step (srv : Server) (a : Action) (s : string) :
  s ∈ activeConnections (step srv a) <->
  match a with
  | Connect s' => s = s' \/ s ∈ activeConnections srv
  | Disconnect s' => s ∈ activeConnections srv /\ s <> s'
  | _ => s ∈ activeConnections srv
  end.
Proof.
  destruct a as [s'|s' j|s' j|s'|e]; cbn; try tauto; set_solver.
Qed.

(** X10. [activeConnections] holds exactly the sockets that connected and
    have not disconnected since: joining or leaving a room and publishing do
    not touch it, a disconnect takes the socket out, and the count of
    [getActiveConnectionsCount] never exceeds the number of connections
    made. *)
Theorem active_connections_are_the_open_ones (trace : list Action) (socket : string) :
  (socket ∈ activeConnections (run empty_server trace) <->
   exists before after,
     trace = before ++ Connect socket :: after /\ Disconnect socket ∉ after) /\
  (getActiveConnectionsCount (run empty_server trace)
   <= length (List.filter (fun a => match a with Connect _ => true | _ => false end)
                trace))%nat.
Proof.
  split.
  - induction trace as [|a trace IH] using rev_ind.
    + cbn. split; [set_solver|]. intros (b & c & H & _).
      destruct b; discriminate H.
    + rewrite run_snoc, active_step. split.
      * intros H.
        assert (Hold : socket ∈ activeConnections (run empty_server trace) ->
                       Disconnect socket <> a ->
                       exists before after,
                         trace ++ [a] = before ++ Connect socket :: after /\
                         Disconnect socket ∉ after).
        { intros Hin Hne. apply IH in Hin as (b & c & -> & Hc).
          exists b, (c ++ [a]). split; [rewrite <- app_assoc; reflexivity|].
          rewrite elem_of_app, list_elem_of_singleton. intros [?|?]; [tauto|].
          congruence. }
        destruct a as [s'|s' j|s' j|s'|e]; try (apply Hold; [exact H | discriminate]).
        -- destruct H as [->|H]; [|apply Hold; [exact H | discriminate]].
           exists trace, []. split; [reflexivity|]. set_solver.
        -- destruct H as [H Hne]. apply Hold; [exact H | congruence].
      * intros (b & c & Heq & Hc).
        destruct c as [|x c _] using rev_ind.
        -- apply app_inj_tail in Heq as [-> ->]. left. reflexivity.
        -- rewrite app_comm_cons, app_assoc in Heq.
           apply app_inj_tail in Heq as [-> ->].
           rewrite elem_of_app, list_elem_of_singleton in Hc.
           assert (Hin : socket ∈ activeConnections
                                  (run empty_server (b ++ Connect socket :: c))).
           { apply IH. exists b, c. split; [reflexivity | tauto]. }
           destruct x as [s'|s' j|s' j|s'|e]; try exact Hin.
           ++ right. exact Hin.
           ++ split; [exact Hin|]. intros ->. tauto.
  - unfold getActiveConnectionsCount.
    induction trace as [|a trace IH] using rev_ind; [reflexivity|].
    rewrite run_snoc, List.filter_app, length_app.
    destruct a as [s'|s' j|s' j|s'|e]; cbn [step List.filter length];
      try (cbn; lia).
    + unfold connection. cbn [activeConnections].
      pose proof (size_union_alt {[s']} (activeConnections (run empty_server trace))) as Hu.
      rewrite Hu, size_singleton.
      pose proof (subseteq_size (activeConnections (run empty_server trace) ∖ {[s']})
                    (activeConnections (run empty_server trace)) ltac:(set_solver)).
      lia.
    + unfold disconnect. cbn [activeConnections].
      pose proof (subseteq_size (activeConnections (run empty_server trace) ∖ {[s']})
                    (activeConnections (run empty_server trace)) ltac:(set_solver)).
      lia.
Qed.

(** ** The error handler *)

Lemma chars_app (a b : string) : chars (a +:+ b) = chars a ++ chars b.
Proof.
  unfold chars. induction a as [|c a IH]; simpl; [reflexivity|]. f_equal. exact IH.
Qed.

Lemma occurs_app_r (needle before hay : list ascii) :
  occurs needle hay = true -> occurs needle (before ++ hay) = true.
Proof.
  intros H. induction before as [|c before IH]; [exact H|].
  cbn [app occurs]. rewrite IH. apply orb_true_r.
Qed.

Lemma includes_prefixed (prefix message phrase : string) :
  includes_string message phrase = true ->
  includes_string (prefix +:+ message) phrase = true.
Proof.
  unfold includes_string. rewrite chars_app. apply occurs_app_r.
Qed.

(** X11. Of the rules of the error handler the last that applies decides.
    An error named ['ValidationError'] is always answered 400 with
    ['Validation failed: '] before its message; failing that, a message that
    mentions ['Too many requests'] is answered 429, whatever the code of the
    error.  An error to which no rule applies keeps its message and its
    status, 500 when it has none.  Without a status of its own an error is
    answered with one of 400, 403, 404, 413, 422, 429, 500 and 507. *)
Theorem error_handler_last_rule_wins (err : JsError) :
  (e_name err = Some "ValidationError" ->
   errorHandler err
   = {| reply_message := concat_message "Validation failed: " (e_message err);
        reply_status := 400 |}) /\
  (e_name err <> Some "ValidationError" ->
   message_includes err "Too many requests" = true ->
   errorHandler err
   = {| reply_message := "Rate limit exceeded. Please try again later.";
        reply_status := 429 |}) /\
  (forall message,
     err = new_Error message -> message <> "" -> plain_message message ->
     errorHandler err = {| reply_message := message; reply_status := 500 |}) /\
  (truthy_number (e_status err) = false ->
   reply_status (errorHandler err) ∈ [400; 403; 404; 413; 422; 429; 500; 507]).
Proof.
  split; [|split; [|split]].
  - intros Hname. unfold errorHandler. cbv zeta.
    rewrite (bool_decide_eq_true_2 _ Hname). reflexivity.
  - intros Hname Hrate. unfold errorHandler. cbv zeta.
    rewrite (bool_decide_eq_false_2 _ Hname), Hrate. reflexivity.
  - intros message -> Hne (H1 & H2 & H3 & H4).
    unfold errorHandler, message_includes, code_is, new_Error. cbv zeta.
    cbn [e_message e_status e_code e_name truthy_string truthy_number default from_option id].
    rewrite H1, H2, H3, H4, !andb_false_r.
    destruct (String.eqb_spec message ""); [contradiction|]. reflexivity.
  - intros Hstatus. unfold errorHandler. cbv zeta. rewrite Hstatus.
    repeat match goal with
           | |- context [if ?c then _ else _] => destruct c
           end;
      cbn [reply_status]; rewrite !elem_of_cons; tauto.
Qed.

(** X11 on a validation error that also mentions a rate limit. *)
Lemma error_handler_last_rule_wins_on_a_validation_error :
  errorHandler {| e_message := Some "Too many requests in field 'files'";
                  e_status := None; e_code := Some "ENOENT";
                  e_name := Some "ValidationError" |}
  = {| reply_message := "Validation failed: Too many requests in field 'files'";
       reply_status := 400 |}.
Proof.
  exact (proj1 (error_handler_last_rule_wins
                  {| e_message := Some "Too many requests in field 'files'";
                     e_status := None; e_code := Some "ENOENT";
                     e_name := Some "ValidationError" |}) eq_refl).
Defined.

(** ** A failed batch before the error handler *)

Lemma occurs_skip (needle hay : list ascii) (c : ascii) :
  starts_with needle (c :: hay) = false ->
  occurs needle (c :: hay) = occurs needle hay.
Proof.
  intros H. cbn [occurs]. rewrite H. reflexivity.
Qed.

(** The text the batch puts before the message of the archiver neither holds
    nor completes a phrase the handler looks for. *)
Lemma batch_prefix_hides_nothing (e phrase : string) :
  phrase ∈ ["Invalid file type"; "ffmpeg";
            "Input file contains unsupported image format"; "Too many requests"] ->
  includes_string ("Batch compression failed: " +:+ e) phrase
  = includes_string e phrase.
Proof.
  intros H. unfold includes_string. rewrite chars_app.
  repeat (apply elem_of_cons in H as [->|H]);
    [| | | | apply elem_of_nil in H; contradiction];
    cbn [chars list_ascii_of_string app];
    repeat (rewrite occurs_skip by reflexivity); reflexivity.
Qed.

(** X12. A batch that fails reaches the error handler as a fresh error,
    ['Batch compression failed: '] before the message of the archiver, and
    without the code of the archiver's error.  The handler therefore
    goes by the message alone: the reply is one of 400, 422, 429 and 500,
    never 507, 404 or 403, and when the archiver's message holds none of
    the phrases of the handler the reply is 500 with the whole message. *)
Theorem failed_batch_is_answered_by_its_message {W : Type} (ext : External W)
    (files : list FileRef) (outputDir : string) (options : BatchOptions)
    (io : option Io) (jobId : option string) (w : W) (message : string) :
  outcome (compressBatch ext files outputDir options io jobId w) = Thrown message ->
  exists e,
    message = "Batch compression failed: " +:+ e /\
    reply_status (errorHandler (new_Error message)) ∈ [400; 422; 429; 500] /\
    (plain_message e ->
     errorHandler (new_Error message)
     = {| reply_message := message; reply_status := 500 |}).
Proof.
  intros H.
  apply compressBatch_throws in H as (_ & _ & _ & _ & e & _ & ->).
  exists e. split; [reflexivity|]. split.
  - unfold errorHandler, message_includes, code_is, new_Error. cbv zeta.
    cbn [e_message e_status e_code e_name truthy_string truthy_number default
         from_option id].
    rewrite !bool_decide_eq_false_2 by discriminate.
    repeat match goal with
           | |- context [if ?c then _ else _] => destruct c
           end;
      cbn [reply_status]; rewrite !elem_of_cons; tauto.
  - intros (H1 & H2 & H3 & H4).
    unfold errorHandler, message_includes, code_is, new_Error. cbv zeta.
    cbn [e_message e_status e_code e_name truthy_string truthy_number default
         from_option id].
    rewrite !batch_prefix_hides_nothing
      by (rewrite !elem_of_cons; tauto).
    rewrite H1, H2, H3, H4, !andb_false_r.
    rewrite !bool_decide_eq_false_2 by discriminate. reflexivity.
Qed.

(** X12 on two images whose archive cannot be written for lack of space. *)
Lemma failed_batch_is_answered_by_its_message_on_a_full_disk :
  exists e,
    "Batch compression failed: ENOSPC: no space left on device"
    = "Batch compression failed: " +:+ e /\
    reply_status (errorHandler (new_Error "Batch compression failed: ENOSPC: no space left on device"))
      ∈ [400; 422; 429; 500] /\
    (plain_message e ->
     errorHandler (new_Error "Batch compression failed: ENOSPC: no space left on device")
     = {| reply_message := "Batch compression failed: ENOSPC: no space left on device";
          reply_status := 500 |}).
Proof.
  exact (failed_batch_is_answered_by_its_message zip_fails
           [upload "a.jpg"; upload "b.jpg"] "temp" (default_options true) None None 0%nat
           "Batch compression failed: ENOSPC: no space left on device" eq_refl).
Defined.

(** ** Unique file names *)

Lemma chars_unchars (l : list ascii) : chars (unchars l) = l.
Proof. apply list_ascii_of_string_of_list_ascii. Qed.

Lemma unchars_chars (s : string) : unchars (chars s) = s.
Proof. apply string_of_list_ascii_of_string. Qed.

Lemma take_until_none (p : ascii -> bool) (l : list ascii) :
  Forall (fun c => p c = false) (take_until p l).
Proof.
  induction l as [|c l IH]; cbn; [constructor|].
  destruct (p c) eqn:E; constructor; assumption.
Qed.

Lemma take_until_Forall (P : ascii -> Prop) (p : ascii -> bool) (l : list ascii) :
  Forall P l -> Forall P (take_until p l).
Proof.
  induction 1 as [|c l Hc _ IH]; cbn; [constructor|].
  destruct (p c); constructor; assumption.
Qed.

Lemma take_until_app (p : ascii -> bool) (l1 l2 : list ascii) :
  Forall (fun c => p c = false) l1 ->
  take_until p (l1 ++ l2) = l1 ++ take_until p l2.
Proof.
  induction 1 as [|c l1 Hc _ IH]; cbn; [reflexivity|].
  rewrite Hc, IH. reflexivity.
Qed.

Lemma drop_until_app (p : ascii -> bool) (l1 l2 : list ascii) :
  Forall (fun c => p c = false) l1 ->
  drop_until p (l1 ++ l2) = drop_until p l2.
Proof.
  induction 1 as [|c l1 Hc _ IH]; cbn; [reflexivity|].
  rewrite Hc, IH. reflexivity.
Qed.

(** An extension is empty, or a dot and characters that are neither dots nor
    separators. *)
Lemma extname_shape (p : string) :
  extname p = "" \/
  exists t, extname p = unchars ("."%char :: t) /\ extension_tail t.
Proof.
  unfold extname. cbv zeta.
  assert (Hafter : extension_tail (rev (take_until is_dot (last_part_rev p)))).
  { split; apply Forall_rev; [apply take_until_none|].
    apply take_until_Forall. apply take_until_none. }
  destruct (drop_until is_dot (last_part_rev p)) as [|dot before]; [left; reflexivity|].
  destruct before as [|d before]; [left; reflexivity|].
  destruct before as [|d' before];
    [destruct (take_until is_dot (last_part_rev p)) as [|a after] eqn:E|].
  - destruct (is_dot d); [left; reflexivity|].
    right. exists []. split; [reflexivity|]. split; constructor.
  - right. eexists. split; [reflexivity|]. exact Hafter.
  - right. eexists. split; [reflexivity|]. exact Hafter.
Qed.

(** A name that ends with an underscore, characters without a separator and
    an extension has that extension. *)
Lemma extname_of_tail (pre uid t : list ascii) :
  Forall (fun c => is_slash c = false) uid -> extension_tail t ->
  extname (unchars (pre ++ "_"%char :: uid ++ "."%char :: t)) = unchars ("."%char :: t).
Proof.
  intros Huid [Hdot Hslash].
  assert (Hpart : last_part_rev (unchars (pre ++ "_"%char :: uid ++ "."%char :: t))
                  = rev t ++ "."%char :: rev uid
                      ++ "_"%char :: take_until is_slash (rev pre)).
  { unfold last_part_rev. rewrite chars_unchars.
    replace (rev (pre ++ "_"%char :: uid ++ "."%char :: t))
      with (rev t ++ "."%char :: rev uid ++ "_"%char :: rev pre).
    2:{ rewrite rev_app_distr. cbn [rev]. rewrite rev_app_distr. cbn [rev].
        rewrite <- !app_assoc. reflexivity. }
    assert (Hhead : drop_while is_slash
                      (rev t ++ "."%char :: rev uid ++ "_"%char :: rev pre)
                    = rev t ++ "."%char :: rev uid ++ "_"%char :: rev pre).
    { apply Forall_rev in Hslash.
      destruct Hslash as [|c l Hc _]; cbn; [reflexivity|]. rewrite Hc. reflexivity. }
    rewrite Hhead.
    rewrite take_until_app by (apply Forall_rev; exact Hslash).
    cbn [take_until]. change (is_slash "."%char) with false. cbn iota.
    rewrite take_until_app by (apply Forall_rev; exact Huid).
    cbn [take_until]. change (is_slash "_"%char) with false. cbn iota.
    reflexivity. }
  unfold extname. cbv zeta. rewrite Hpart.
  rewrite take_until_app by (apply Forall_rev; exact Hdot).
  rewrite drop_until_app by (apply Forall_rev; exact Hdot).
  cbn [take_until drop_until]. change (is_dot "."%char) with true. cbn iota.
  rewrite app_nil_r.
  destruct (rev uid) as [|u uid'];
    [destruct (take_until is_slash (rev pre)) as [|z zs]|]; cbn [app].
  - destruct (rev t) as [|a after] eqn:E.
    + apply (f_equal (@rev ascii)) in E. rewrite rev_involutive in E. subst t.
      reflexivity.
    + rewrite <- E, rev_involutive. reflexivity.
  - rewrite rev_involutive. reflexivity.
  - destruct uid' as [|u' uid'']; cbn [app]; rewrite rev_involutive; reflexivity.
Qed.

Section UniqueNames.
Context {W : Type} (ext : External W).

(** Identifiers never hold a path separator. *)
Hypothesis uuid_plain : forall w, "/"%char ∉ chars (uuidv4 ext w).2.

Lemma generateUniqueFilename_chars (originalName suffix : string) (w : W) :
  exists name pre uid,
    generateUniqueFilename ext originalName suffix w
    = (world_of (generateUniqueFilename ext originalName suffix w), [],
       Returned name) /\
    chars name = pre ++ "_"%char :: uid ++ chars (extname originalName) /\
    Forall (fun c => is_slash c = false) uid.
Proof.
  unfold generateUniqueFilename, bind, ask, ret, world_of. cbv zeta.
  destruct (Date_now ext w) as [w1 timestamp].
  pose proof (uuid_plain w1) as Hplain.
  destruct (uuidv4 ext w1) as [w2 uuid]. cbn [snd fst app] in *.
  eexists _, (chars (basename_ext originalName (extname originalName))
                ++ chars suffix ++ chars "_" ++ chars (pretty timestamp)),
    (chars (slice0 8 uuid)).
  split; [reflexivity|]. split.
  - rewrite !chars_app, <- !app_assoc. reflexivity.
  - unfold slice0. rewrite chars_unchars. apply Forall_forall. intros c Hc.
    unfold is_slash. apply bool_decide_eq_false. intros ->.
    apply Hplain. exact (subseteq_take 8 _ _ Hc).
Qed.

Lemma generateUniqueFilename_extname (originalName suffix : string) (w : W) :
  extname originalName <> "" ->
  exists name,
    outcome (generateUniqueFilename ext originalName suffix w) = Returned name /\
    extname name = extname originalName.
Proof.
  intros Hext.
  destruct (generateUniqueFilename_chars originalName suffix w)
    as (name & pre & uid & Hrun & Hchars & Huid).
  exists name. split; [rewrite Hrun; reflexivity|].
  destruct (extname_shape originalName) as [E|(t & E & Ht)]; [contradiction|].
  rewrite <- (unchars_chars name), Hchars, E, chars_unchars.
  apply extname_of_tail; assumption.
Qed.
End UniqueNames.

(** X13. With identifiers free of path separators, the unique name made for
    a file with an extension is returned without a packet and ends with that
    very extension, so it has the category of the original name and is
    supported when the original is: a file the upload filter accepts is
    stored under a name the filter accepts and the batch can dispatch. *)
Theorem unique_name_keeps_the_type {W : Type} (ext : External W)
    (originalName suffix : string) (w : W) :
  (forall w', "/"%char ∉ chars (uuidv4 ext w').2) ->
  extname originalName <> "" ->
  exists name,
    outcome (generateUniqueFilename ext originalName suffix w) = Returned name /\
    emitted (generateUniqueFilename ext originalName suffix w) = [] /\
    extname name = extname originalName /\
    getFileTypeCategory name = getFileTypeCategory originalName /\
    isFileTypeSupported name = isFileTypeSupported originalName /\
    (fileFilter originalName = Returned tt ->
     fileFilter name = Returned tt /\ getFileTypeCategory name <> "unknown").
Proof.
  intros Huuid Hext.
  destruct (generateUniqueFilename_extname ext Huuid originalName suffix w Hext)
    as (name & Hname & E).
  exists name. split; [exact Hname|]. split.
  { unfold generateUniqueFilename, bind, ask, ret, emitted. cbv zeta.
    destruct (Date_now ext w) as [w1 timestamp].
    destruct (uuidv4 ext w1) as [w2 uuid]. reflexivity. }
  split; [exact E|].
  assert (Hsupp : isFileTypeSupported name = isFileTypeSupported originalName).
  { unfold isFileTypeSupported. rewrite E. reflexivity. }
  split; [unfold getFileTypeCategory; rewrite E; reflexivity|].
  split; [exact Hsupp|].
  unfold fileFilter. rewrite Hsupp.
  destruct (isFileTypeSupported originalName) eqn:Hok; [|discriminate].
  intros _. split; [reflexivity|]. apply supported_known. congruence.
Qed.

(** X13 on the upload of [Holiday.JPG]. *)
Lemma unique_name_keeps_the_type_on_a_jpg :
  exists name,
    outcome (generateUniqueFilename calm "Holiday.JPG" "" 0%nat) = Returned name /\
    emitted (generateUniqueFilename calm "Holiday.JPG" "" 0%nat) = [] /\
    extname name = extname "Holiday.JPG" /\
    getFileTypeCategory name = getFileTypeCategory "Holiday.JPG" /\
    isFileTypeSupported name = isFileTypeSupported "Holiday.JPG" /\
    (fileFilter "Holiday.JPG" = Returned tt ->
     fileFilter name = Returned tt /\ getFileTypeCategory name <> "unknown").
Proof.
  apply (unique_name_keeps_the_type calm "Holiday.JPG" "" 0%nat).
  - intros w'. apply (bool_decide_unpack _). vm_compute. exact I.
  - discriminate.
Defined.

(** ** The extension of a compressed file *)






Section OutputNames.
Context {W : Type} (ext : External W).
Variables (inputPath outputDir : string) (io : option Io) (jobId : option string).

(** Identifiers never hold a path separator. *)
Hypothesis uuid_plain : forall w, "/"%char ∉ chars (uuidv4 ext w).2.
Hypothesis has_extension : extname inputPath <> "".







End OutputNames.



(** ** The job route *)

Lemma emitError_packets_job {W : Type} io jobId error (w : W) :
  when (truthy_io io) (emitError io (Some jobId) error) w
  = (w, job_packets io (Some jobId) "error" (ErrorPayload error), Returned tt).
Proof.
  unfold when, emitError, job_packets.
  destruct (truthy_io io), (truthy_string (Some jobId)); reflexivity.
Qed.

Lemma processing_packets {W : Type} io jobId message (w : W) :
  when (truthy_io io) (emitStatus io (Some jobId) "processing" message) w
  = (w, job_packets io (Some jobId) "status" (StatusPayload "processing" message),
     Returned tt).
Proof.
  unfold when, emitStatus, job_packets.
  destruct (truthy_io io), (truthy_string (Some jobId)); reflexivity.
Qed.

(** X15. The job route is the batch route under the job id of the URL: on a
    request with files, the batch route run from some state and the job
    route run with the id the batch route draws, from the state after the
    draw, give the same reply and leave the same state, and they publish
    the same packets but for the opening status packet, ['started'] in the
    one and ['processing'] in the other. *)
Theorem job_route_is_the_batch_route_under_a_given_id {W : Type} (ext : External W)
    (tempDir : string) (io : option Io) (body : BatchRequest) (w : W)
    (submitted : list FileRef) :
  req_files body = Some submitted -> submitted <> [] ->
  let jobId := (uuidv4 ext w).2 in
  let batch := postBatch ext tempDir io body w in
  let job := postJob ext tempDir io jobId body (uuidv4 ext w).1 in
  outcome batch = outcome job /\
  world_of batch = world_of job /\
  exists rest,
    (emitted batch = rest /\ emitted job = rest) \/
    (emitted batch
     = job_packets io (Some jobId) "status"
         (StatusPayload "started"
            ("Starting batch compression of " +:+ pretty (length submitted)
               +:+ " files")) ++ rest /\
     emitted job
     = job_packets io (Some jobId) "status"
         (StatusPayload "processing"
            ("Processing " +:+ pretty (length submitted) +:+ " files")) ++ rest).
Proof.
  intros Hreq Hne. cbv zeta.
  remember (postBatch ext tempDir io body w) as batch eqn:Hbatch.
  remember (postJob ext tempDir io (uuidv4 ext w).2 body (uuidv4 ext w).1)
    as job eqn:Hjob.
  unfold postBatch in Hbatch. unfold postJob in Hjob.
  rewrite Hreq in Hbatch, Hjob.
  destruct submitted as [|f fs]; [contradiction|].
  unfold generateJobId, ask in Hbatch. unfold bind at 1 in Hbatch.
  destruct (uuidv4 ext w) as [w1 jobId]. cbn [fst snd] in *. cbv beta iota in Hbatch.
  unfold try_catch in Hbatch, Hjob.
  unfold bind at 1 in Hbatch. unfold bind at 1 in Hjob.
  destruct (first_missing_run ext (f :: fs) w1) as (found & Hout & Hem & _).
  destruct (first_missing ext (f :: fs) w1) as [[w2 out2] r2].
  unfold outcome, emitted in Hout, Hem. cbn [fst snd] in Hout, Hem. subst r2 out2.
  cbv beta iota in Hbatch, Hjob.
  destruct found as [file|].
  - unfold ret in Hbatch, Hjob. subst. repeat split. eexists. left. split; reflexivity.
  - unfold bind at 1, call in Hbatch. unfold bind at 1, call in Hjob.
    destruct (fs_ensureDir ext tempDir w2) as [w3 [[]|e]]; cbv beta iota in Hbatch, Hjob.
    + unfold bind at 1 in Hbatch. unfold bind at 1 in Hjob.
      cbv beta in Hbatch, Hjob.
      rewrite started_packets in Hbatch. rewrite processing_packets in Hjob.
      cbv beta iota in Hbatch, Hjob.
      unfold bind at 1 in Hbatch. unfold bind at 1 in Hjob.
      cbv beta in Hbatch, Hjob.
      destruct (compressBatch ext (f :: fs) tempDir _ io (Some jobId) w3)
        as [[w4 out4] [result|e]]; cbv beta iota zeta in Hbatch, Hjob.
      * unfold bind at 1 in Hbatch. unfold bind at 1 in Hjob.
        cbv beta in Hbatch, Hjob.
        rewrite emitCompletion_packets in Hbatch, Hjob.
        unfold ret in Hbatch, Hjob. cbv beta iota in Hbatch, Hjob. subst.
        unfold outcome, world_of, emitted. cbn [fst snd app].
        split; [reflexivity|]. split; [reflexivity|].
        eexists. right. rewrite <- ?app_assoc. split; reflexivity.
      * unfold bind in Hbatch, Hjob. cbv beta in Hbatch, Hjob.
        rewrite emitError_packets in Hbatch. rewrite emitError_packets_job in Hjob.
        unfold ret in Hbatch, Hjob. cbv beta iota in Hbatch, Hjob. subst.
        unfold outcome, world_of, emitted. cbn [fst snd app].
        split; [reflexivity|]. split; [reflexivity|].
        eexists. right. rewrite <- ?app_assoc. split; reflexivity.
    + unfold bind in Hbatch, Hjob. cbv beta in Hbatch, Hjob.
      rewrite emitError_packets in Hbatch. rewrite emitError_packets_job in Hjob.
      unfold ret in Hbatch, Hjob. cbv beta iota in Hbatch, Hjob. subst.
      unfold outcome, world_of, emitted. cbn [fst snd app].
      split; [reflexivity|]. split; [reflexivity|].
      eexists. left. split; reflexivity.
Qed.

(** X15 on two images: the replies of the two routes are the same. *)
Lemma job_route_is_the_batch_route_under_a_given_id_on_two_images :
  outcome (postBatch calm "temp" (Some socket_io)
             {| req_files := Some [upload "a.png"; upload "b.jpg"];
                req_image := default_image; req_video := default_video;
                req_audio := default_audio; req_createArchive := false |}
             0%nat)
  = outcome (postJob calm "temp" (Some socket_io)
               "3f2b8c1e-7a4d-4e0b-9c55-1d2e3f4a5b6c"
               {| req_files := Some [upload "a.png"; upload "b.jpg"];
                  req_image := default_image; req_video := default_video;
                  req_audio := default_audio; req_createArchive := false |}
               1%nat).
Proof.
  refine (proj1 (job_route_is_the_batch_route_under_a_given_id calm "temp"
                   (Some socket_io)
                   {| req_files := Some [upload "a.png"; upload "b.jpg"];
                      req_image := default_image; req_video := default_video;
                      req_audio := default_audio; req_createArchive := false |}
                   0%nat [upload "a.png"; upload "b.jpg"] eq_refl _)).
  discriminate.
Defined.

(** ** Safe file names *)

Lemma underscore_is_unsafe (c : ascii) : is_underscore c = true -> is_safe_char c = false.
Proof. unfold is_underscore. intros H. apply bool_decide_eq_true in H. subst. reflexivity. Qed.

Lemma is_underscore_true (c : ascii) : is_underscore c = true <-> c = "_"%char.
Proof. unfold is_underscore. apply bool_decide_eq_true. Qed.

Lemma replace_unsafe_class (l : list ascii) :
  Forall (fun c => is_safe_char c = true \/ c = "_"%char) (replace_unsafe l).
Proof.
  unfold replace_unsafe. apply Forall_map, Forall_forall. intros c _.
  destruct (is_safe_char c) eqn:E; [left; cbn; exact E | right; reflexivity].
Qed.

Lemma replace_unsafe_fixed (l : list ascii) :
  Forall (fun c => is_safe_char c = true \/ c = "_"%char) l -> replace_unsafe l = l.
Proof.
  unfold replace_unsafe. induction 1 as [|c l Hc _ IH]; cbn; [reflexivity|].
  rewrite IH. destruct Hc as [-> | ->]; reflexivity.
Qed.

Lemma squeeze_sublist (l : list ascii) : sublist (squeeze_underscores l) l.
Proof.
  induction l as [|c rest IH]; cbn; [constructor|].
  destruct (_ && _); [apply sublist_cons | apply sublist_skip]; exact IH.
Qed.

Lemma squeeze_class (P : ascii -> Prop) (l : list ascii) :
  Forall P l -> Forall P (squeeze_underscores l).
Proof.
  induction 1 as [|c rest Hc _ IH]; cbn; [constructor|].
  destruct (_ && _); [exact IH | constructor; assumption].
Qed.

Lemma head_squeeze (l : list ascii) :
  head (squeeze_underscores l) = head l.
Proof.
  induction l as [|c rest IH]; cbn; [reflexivity|].
  destruct (is_underscore c) eqn:Hc; cbn [andb]; [|reflexivity].
  destruct rest as [|d rest']; [reflexivity|].
  destruct (is_underscore d) eqn:Hd; [|reflexivity].
  rewrite IH. cbn. apply is_underscore_true in Hc, Hd. congruence.
Qed.

Lemma squeeze_no_double (l : list ascii) :
  no_double_underscore (squeeze_underscores l) = true.
Proof.
  induction l as [|c rest IH]; cbn [squeeze_underscores]; [reflexivity|].
  destruct (is_underscore c && _) eqn:E; [exact IH|].
  cbn [no_double_underscore]. rewrite IH, andb_true_r.
  pose proof (head_squeeze rest) as Hhead.
  destruct (squeeze_underscores rest) as [|d' tail], rest as [|d rest'];
    cbn in Hhead; try discriminate; rewrite ?andb_false_r; try reflexivity.
  injection Hhead as ->. rewrite E. reflexivity.
Qed.

Lemma squeeze_fixed (l : list ascii) :
  no_double_underscore l = true -> squeeze_underscores l = l.
Proof.
  induction l as [|c rest IH]; cbn; [reflexivity|].
  intros H. apply andb_true_iff in H as [Hc Hrest].
  apply negb_true_iff in Hc. rewrite Hc, (IH Hrest). reflexivity.
Qed.

Lemma no_double_tail (l : list ascii) :
  no_double_underscore l = true ->
  no_double_underscore (drop_while is_underscore l) = true.
Proof.
  induction l as [|c rest IH]; cbn [drop_while]; [reflexivity|].
  intros H. destruct (is_underscore c); [|exact H].
  apply IH. cbn in H. apply andb_true_iff in H. apply H.
Qed.

Lemma last_rev (l : list ascii) : last (rev l) = head l.
Proof. rewrite rev_alt. apply (last_reverse l). Qed.

Lemma head_rev (l : list ascii) : head (rev l) = last l.
Proof. rewrite rev_alt. apply (head_reverse l). Qed.

Lemma no_double_rev (l : list ascii) :
  no_double_underscore (rev l) = no_double_underscore l.
Proof.
  assert (Hsnoc : forall l c,
            no_double_underscore (l ++ [c])
            = no_double_underscore l
              && negb (is_underscore c
                       && match last l with Some d => is_underscore d | None => false end)).
  { clear l. induction l as [|a l IH]; intros c.
    - cbn. destruct (is_underscore c); reflexivity.
    - destruct l as [|b l'].
      + cbn. destruct (is_underscore a), (is_underscore c); reflexivity.
      + change (no_double_underscore ((a :: b :: l') ++ [c]))
          with (negb (is_underscore a && is_underscore b)
                && no_double_underscore ((b :: l') ++ [c])).
        change (no_double_underscore (a :: b :: l'))
          with (negb (is_underscore a && is_underscore b)
                && no_double_underscore (b :: l')).
        change (last (a :: b :: l')) with (last (b :: l')).
        rewrite IH, andb_assoc. reflexivity. }
  induction l as [|a l IH]; [reflexivity|].
  cbn [rev]. rewrite Hsnoc, IH. cbn [no_double_underscore].
  rewrite last_rev, andb_comm. destruct l; reflexivity.
Qed.

Lemma drop_while_Forall (P : ascii -> Prop) (p : ascii -> bool) (l : list ascii) :
  Forall P l -> Forall P (drop_while p l).
Proof.
  induction 1 as [|c l Hc Hl IH]; cbn; [constructor|].
  destruct (p c); [exact IH | constructor; assumption].
Qed.

Lemma drop_while_length (p : ascii -> bool) (l : list ascii) :
  (length (drop_while p l) <= length l)%nat.
Proof. induction l as [|c l IH]; cbn; [lia|]. destruct (p c); cbn; lia. Qed.

Lemma head_drop_while (p : ascii -> bool) (l : list ascii) (c : ascii) :
  head (drop_while p l) = Some c -> p c = false.
Proof.
  induction l as [|a l IH]; cbn; [discriminate|].
  destruct (p a) eqn:E; [exact IH|]. cbn. intros [= <-]. exact E.
Qed.

Lemma last_drop_while (p : ascii -> bool) (l : list ascii) (c : ascii) :
  last (drop_while p l) = Some c -> last l = Some c.
Proof.
  induction l as [|a l IH]; cbn [drop_while]; [discriminate|].
  destruct (p a); [|tauto].
  intros H. specialize (IH H). destruct l; [discriminate|exact IH].
Qed.

Lemma drop_while_fixed (p : ascii -> bool) (l : list ascii) :
  (forall c, head l = Some c -> p c = false) -> drop_while p l = l.
Proof.
  destruct l as [|a l]; cbn; [reflexivity|].
  intros H. rewrite (H a eq_refl). reflexivity.
Qed.

Lemma not_underscore (c : ascii) : is_underscore c = false <-> c <> "_"%char.
Proof. unfold is_underscore. apply bool_decide_eq_false. Qed.

Lemma trim_class (P : ascii -> Prop) (l : list ascii) :
  Forall P l -> Forall P (trim_underscores l).
Proof.
  intros H. unfold trim_underscores.
  apply Forall_rev, drop_while_Forall, Forall_rev, drop_while_Forall, H.
Qed.

Lemma trim_no_double (l : list ascii) :
  no_double_underscore l = true -> no_double_underscore (trim_underscores l) = true.
Proof.
  intros H. unfold trim_underscores.
  rewrite no_double_rev. apply no_double_tail.
  rewrite no_double_rev. apply no_double_tail, H.
Qed.

Lemma trim_head (l : list ascii) (c : ascii) :
  head (trim_underscores l) = Some c -> c <> "_"%char.
Proof.
  unfold trim_underscores. rewrite head_rev. intros H.
  apply last_drop_while in H. rewrite last_rev in H.
  apply head_drop_while in H. apply not_underscore, H.
Qed.

Lemma trim_last (l : list ascii) (c : ascii) :
  last (trim_underscores l) = Some c -> c <> "_"%char.
Proof.
  unfold trim_underscores. rewrite last_rev. intros H.
  apply head_drop_while in H. apply not_underscore, H.
Qed.

Lemma trim_fixed (l : list ascii) :
  (forall c, head l = Some c -> c <> "_"%char) ->
  (forall c, last l = Some c -> c <> "_"%char) ->
  trim_underscores l = l.
Proof.
  intros Hhead Hlast. unfold trim_underscores.
  rewrite (drop_while_fixed is_underscore l)
    by (intros c Hc; apply not_underscore, Hhead, Hc).
  rewrite (drop_while_fixed is_underscore (rev l)).
  - apply rev_involutive.
  - intros c Hc. rewrite head_rev in Hc. apply not_underscore, Hlast, Hc.
Qed.

Lemma trim_length (l : list ascii) : (length (trim_underscores l) <= length l)%nat.
Proof.
  unfold trim_underscores. rewrite length_rev.
  etransitivity; [apply drop_while_length|]. rewrite length_rev.
  apply drop_while_length.
Qed.

Lemma getSafeFilename_safe (filename : string) : safe_name (getSafeFilename filename).
Proof.
  unfold safe_name, getSafeFilename. rewrite chars_unchars.
  split; [|split; [|split]].
  - apply trim_class, squeeze_class, replace_unsafe_class.
  - apply trim_no_double, squeeze_no_double.
  - apply trim_head.
  - apply trim_last.
Qed.

Lemma getSafeFilename_fixed (filename : string) :
  safe_name filename -> getSafeFilename filename = filename.
Proof.
  intros (Hclass & Hdouble & Hhead & Hlast). unfold getSafeFilename.
  rewrite (replace_unsafe_fixed _ Hclass), (squeeze_fixed _ Hdouble),
    (trim_fixed _ Hhead Hlast).
  apply unchars_chars.
Qed.

(** X16. A safe file name holds only letters, digits, dots, hyphens and
    single underscores, with no underscore at either end, so no path
    separator; it is never longer than the name it was made from.  Names
    of that form are left as they are, so making a name safe twice is
    making it safe once. *)
Theorem getSafeFilename_is_safe_and_idempotent (filename : string) :
  safe_name (getSafeFilename filename) /\
  ("/"%char ∉ chars (getSafeFilename filename)) /\
  (String.length (getSafeFilename filename) <= String.length filename)%nat /\
  (safe_name filename -> getSafeFilename filename = filename) /\
  getSafeFilename (getSafeFilename filename) = getSafeFilename filename.
Proof.
  pose proof (getSafeFilename_safe filename) as Hsafe.
  split; [exact Hsafe|]. split; [|split; [|split]].
  - destruct Hsafe as (Hclass & _). rewrite Forall_forall in Hclass.
    intros Hin. destruct (Hclass _ Hin) as [H|H]; discriminate H.
  - assert (Hlen : forall s, String.length s = length (chars s)).
    { intros s. unfold chars. induction s as [|c s IH]; cbn; congruence. }
    rewrite !Hlen. unfold getSafeFilename. rewrite chars_unchars.
    etransitivity; [apply trim_length|].
    etransitivity; [apply sublist_length, squeeze_sublist|].
    unfold replace_unsafe. rewrite length_map. reflexivity.
  - apply getSafeFilename_fixed.
  - apply getSafeFilename_fixed, Hsafe.
Qed.

(** ** Cleaning up old files *)

Section CleanupRuns.
Context {W : Type} (disk : Disk W).
Variables (directory : string) (now maxAge : Z).

Lemma cleanupOne_watched (file : string) (count : nat) (w : W) (log : list DiskCall) :
  exists w' visit count',
    cleanupOne (watching disk) directory now maxAge file count (w, log)
    = ((w', log ++ visit), [], Returned count') /\
    cleanupOne disk directory now maxAge file count w = (w', [], Returned count') /\
    statted_paths visit = [path_join directory file] /\
    count' = (count + removals_done visit)%nat /\
    (forall rest, cleanup_calls now maxAge (visit ++ rest)
                  = cleanup_calls now maxAge rest).
Proof.
  unfold cleanupOne, try_catch, bind, call, ret. cbn [watching fs_mtime fs_remove fst snd].
  destruct (fs_mtime disk (path_join directory file) w) as [w1 [mtime|e]] eqn:Hstat.
  - cbv beta iota. destruct (maxAge <? now - mtime) eqn:Hold.
    + cbn [fs_remove watching fst snd].
      destruct (fs_remove disk (path_join directory file) w1) as [w2 [[]|e]] eqn:Hrm;
        cbn [app].
      * exists w2, [Statted (path_join directory file) (Returned mtime);
                    Removed (path_join directory file) (Returned tt)], (S count).
        rewrite <- app_assoc. repeat split.
        -- unfold removals_done. cbn. lia.
        -- intros rest. cbn [app cleanup_calls]. rewrite Hold.
           rewrite bool_decide_eq_true_2 by reflexivity. reflexivity.
      * exists w2, [Statted (path_join directory file) (Returned mtime);
                    Removed (path_join directory file) (Thrown e)], count.
        rewrite <- app_assoc. repeat split.
        -- unfold removals_done. cbn. lia.
        -- intros rest. cbn [app cleanup_calls]. rewrite Hold.
           rewrite bool_decide_eq_true_2 by reflexivity. reflexivity.
    + exists w1, [Statted (path_join directory file) (Returned mtime)], count.
      repeat split.
      * unfold removals_done. cbn. lia.
      * intros rest. cbn [app cleanup_calls]. rewrite Hold. reflexivity.
  - exists w1, [Statted (path_join directory file) (Thrown e)], count.
    repeat split.
    unfold removals_done. cbn. lia.
Qed.

Lemma cleanupLoop_watched (files : list string) (count : nat) (w : W)
    (log : list DiskCall) :
  exists w' calls count',
    cleanupLoop (watching disk) directory now maxAge files count (w, log)
    = ((w', log ++ calls), [], Returned count') /\
    cleanupLoop disk directory now maxAge files count w = (w', [], Returned count') /\
    statted_paths calls = map (path_join directory) files /\
    count' = (count + removals_done calls)%nat /\
    cleanup_calls now maxAge calls = true.
Proof.
  revert count w log. induction files as [|file rest IH]; intros count w log.
  - exists w, [], count. rewrite app_nil_r. repeat split. unfold removals_done. cbn. lia.
  - cbn [cleanupLoop]. unfold bind.
    destruct (cleanupOne_watched file count w log)
      as (w1 & visit & count1 & Hwatched & Hplain & Hpaths & Hcount & Hcalls).
    rewrite Hwatched, Hplain.
    destruct (IH count1 w1 (log ++ visit))
      as (w2 & calls & count2 & Hwatched' & Hplain' & Hpaths' & Hcount' & Hcalls').
    rewrite Hwatched', Hplain'.
    exists w2, (visit ++ calls), count2. rewrite app_assoc. repeat split.
    + unfold statted_paths in *. rewrite omap_app, Hpaths, Hpaths'. reflexivity.
    + unfold removals_done in *. rewrite List.filter_app, length_app. lia.
    + rewrite Hcalls. exact Hcalls'.
Qed.

End CleanupRuns.

(** X17. Cleaning a directory never throws and publishes nothing: it returns
    0 without a call when the directory cannot be listed.  Otherwise every
    listed file is statted once, in the order of the listing and under the
    path of the directory, whatever failed before it; a file is removed
    right after its stat when its age at the time read before the loop is
    more than the limit, and nothing else is ever removed; the count
    returned is the number of removals that succeeded.  Watching the calls
    changes neither the count nor the state. *)
Theorem cleanup_removes_the_old_files_only {W : Type} (disk : Disk W)
    (directory : string) (maxAgeHours : Z) (w : W) :
  let run := cleanupOldFiles (watching disk) directory maxAgeHours (w, []) in
  let calls := (world_of run).2 in
  exists count,
    outcome run = Returned count /\ emitted run = [] /\
    cleanupOldFiles disk directory maxAgeHours w = ((world_of run).1, [], Returned count) /\
    count = removals_done calls /\
    match (fs_readdir disk directory w).2 with
    | Thrown _ => calls = []
    | Returned files =>
        statted_paths calls = map (path_join directory) files /\
        cleanup_calls (clock disk (fs_readdir disk directory w).1).2
          (maxAgeHours * 60 * 60 * 1000) calls = true
    end.
Proof.
  cbv zeta. unfold cleanupOldFiles, try_catch, bind, call, ask, ret.
  cbn [watching fs_readdir clock fst snd].
  destruct (fs_readdir disk directory w) as [w1 [files|e]]; cbn [fst snd].
  - destruct (clock disk w1) as [w2 now]. cbn [fst snd].
    destruct (cleanupLoop_watched disk directory now (maxAgeHours * 60 * 60 * 1000)
                files 0 w2 [])
      as (w3 & calls & count & Hwatched & Hplain & Hpaths & Hcount & Hcalls).
    rewrite Hwatched, Hplain. exists count.
    unfold outcome, emitted, world_of. cbn [fst snd app].
    repeat split; assumption.
  - exists 0%nat. unfold outcome, emitted, world_of. cbn [fst snd app].
    repeat split.
Qed.

(** ** Completion packets *)

Lemma completions_app (a b : list Emit) :
  completions (a ++ b) = (completions a + completions b)%nat.
Proof. unfold completions. rewrite List.filter_app, length_app. reflexivity. Qed.

Lemma completions_none (packets : list Emit) :
  Forall (fun e => is_completion e = false) packets -> completions packets = 0%nat.
Proof.
  unfold completions. induction 1 as [|e rest He _ IH]; cbn; [reflexivity|].
  rewrite He. exact IH.
Qed.

Lemma status_is_no_completion (room_ : string) (payload_ : Payload) :
  is_completion {| room := room_; event := "status"; payload := payload_ |} = false.
Proof. reflexivity. Qed.

Lemma other_message_is_no_completion (room_ event_ : string) (progress : Z)
    (message : string) :
  message ∉ completion_messages ->
  is_completion {| room := room_; event := event_;
                   payload := ProgressPayload progress message |} = false.
Proof.
  intros H. unfold is_completion. cbn [event payload].
  rewrite (bool_decide_eq_false_2 _ H), !andb_false_r. reflexivity.
Qed.

Lemma processing_is_no_completion (rest : string) :
  "Processing " +:+ rest ∉ completion_messages.
Proof.
  unfold completion_messages. rewrite !elem_of_cons, elem_of_nil. cbn.
  intros [H|[H|[H|[H|[]]]]]; discriminate H.
Qed.

Section Completion.
Context {W : Type} (ext : External W) (io : option Io) (jobId : option string).
Hypothesis io_given : truthy_io io = true.
Hypothesis jobId_given : truthy_string jobId = true.

Lemma emitStatus_quiet status message :
  all_emitted (W:=W) (fun e => is_completion e = false)
    (emitStatus io jobId status message).
Proof.
  unfold emitStatus. destruct (_ || _); [apply all_ret|].
  apply all_emit. reflexivity.
Qed.

Lemma emitProgress_quiet (progress : Z) (message : string) :
  progress <> 100 \/ message ∉ completion_messages ->
  all_emitted (W:=W) (fun e => is_completion e = false)
    (emitProgress io jobId (progress, message)).
Proof.
  intros H. unfold emitProgress. destruct (_ || _); [apply all_ret|].
  apply all_emit. unfold is_completion. cbn [event payload fst snd].
  destruct H as [H|H].
  - apply Z.eqb_neq in H. rewrite H. reflexivity.
  - rewrite (bool_decide_eq_false_2 _ H), !andb_false_r. reflexivity.
Qed.

Lemma on_progress_quiet label percents :
  all_emitted (W:=W) (fun e => is_completion e = false)
    (on_progress label io jobId percents).
Proof.
  induction percents as [|p rest IH]; cbn [on_progress].
  - apply all_ret.
  - apply all_bind; [|intros _; exact IH].
    destruct (_ && _); [|apply all_ret].
    apply emitProgress_quiet. right. apply processing_is_no_completion.
Qed.

Ltac quiet_step :=
  first [ apply emitStatus_quiet
        | apply emitProgress_quiet; left; discriminate
        | apply on_progress_quiet
        | apply getFileSize_silent | apply generateUniqueFilename_silent
        | all_step ].

Lemma closes_bind {A B} (m : M W A) (k : A -> M W B) :
  all_emitted (fun e => is_completion e = false) m ->
  (forall a, closes_with_completion (k a)) ->
  closes_with_completion (bind m k).
Proof.
  intros Hm Hk w. rewrite bind_run. specialize (Hm w).
  apply completions_none in Hm.
  destruct (outcome (m w)) as [a|e]; [|exact Hm].
  cbv zeta. specialize (Hk a (world_of (m w))).
  set (r := k a (world_of (m w))) in *.
  change (outcome (world_of r, emitted (m w) ++ emitted r, outcome r))
    with (outcome r).
  change (emitted (world_of r, emitted (m w) ++ emitted r, outcome r))
    with (emitted (m w) ++ emitted r).
  destruct (outcome r) as [b|e].
  - destruct Hk as (earlier & last & Hem & Hlast & Hnone).
    exists (emitted (m w) ++ earlier), last. rewrite Hem, app_assoc.
    split; [reflexivity|]. split; [exact Hlast|].
    rewrite completions_app, Hm, Hnone. reflexivity.
  - rewrite completions_app, Hm, Hk. reflexivity.
Qed.

Lemma closes_rethrow {A} (body : M W A) (f : string -> string) :
  closes_with_completion body ->
  closes_with_completion (try_catch body (fun e => throw (f e))).
Proof.
  intros Hbody w. rewrite try_catch_run. specialize (Hbody w).
  destruct (outcome (body w)) as [a|e]; [exact Hbody|].
  cbv zeta. unfold outcome, emitted, throw. cbn [fst snd].
  rewrite app_nil_r. exact Hbody.
Qed.

Lemma closes_throw {A} (e : string) : closes_with_completion (W:=W) (A:=A) (throw e).
Proof. intros w. reflexivity. Qed.

Lemma closes_final {A} (message : string) (a : A) :
  message ∈ completion_messages ->
  closes_with_completion (W:=W)
    (bind (when (truthy_io io && truthy_string jobId)
             (emitProgress io jobId (100, message)))
       (fun _ => ret a)).
Proof.
  intros Hin w. unfold bind, when, emitProgress, io_to_emit, ret.
  rewrite io_given, jobId_given. cbn [andb negb orb fst snd app].
  unfold outcome, emitted. cbn [fst snd].
  exists [], {| room := default "" jobId; event := "progress";
                payload := ProgressPayload 100 message |}.
  split; [reflexivity|]. split; [|reflexivity].
  unfold is_completion. cbn [event payload].
  rewrite (bool_decide_eq_true_2 _ Hin). reflexivity.
Qed.

Ltac closes_step :=
  first
    [ apply closes_final; apply (bool_decide_unpack _); vm_compute; exact I
    | apply closes_throw
    | apply closes_rethrow
    | apply closes_bind; [solve [repeat quiet_step] | intro]
    | match goal with
      | |- closes_with_completion (if ?c then _ else _) => destruct c
      | |- closes_with_completion (match ?x with _ => _ end) => destruct x
      | |- closes_with_completion (let '(_, _) := ?x in _) => destruct x
      end ].

Lemma compressImage_closes inputPath outputDir options :
  closes_with_completion (compressImage ext inputPath outputDir options io jobId).
Proof. unfold compressImage. cbv zeta. repeat closes_step. Qed.

Lemma compressPDF_closes inputPath outputDir :
  closes_with_completion (compressPDF ext inputPath outputDir io jobId).
Proof. unfold compressPDF. cbv zeta. repeat closes_step. Qed.

Lemma compressVideo_closes inputPath outputDir options :
  closes_with_completion (compressVideo ext inputPath outputDir options io jobId).
Proof. unfold compressVideo, on_end. cbv zeta. repeat closes_step. Qed.

Lemma compressAudio_closes inputPath outputDir options :
  closes_with_completion (compressAudio ext inputPath outputDir options io jobId).
Proof. unfold compressAudio, on_end. cbv zeta. repeat closes_step. Qed.

Lemma dispatch_closes fileType file outputDir options :
  closes_with_completion (dispatch ext fileType file outputDir options io jobId).
Proof.
  unfold dispatch.
  repeat first [ apply compressImage_closes | apply compressVideo_closes
               | apply compressAudio_closes | apply compressPDF_closes
               | closes_step ].
Qed.
End Completion.

Section CompletionCount.
Context {W : Type} (ext : External W) (io : option Io) (jobId : option string).
Variables (outputDir : string) (options : BatchOptions).
Hypothesis io_given : truthy_io io = true.
Hypothesis jobId_given : truthy_string jobId = true.

Lemma job_packets_no_completion (event_ : string) (payload_ : Payload) :
  is_completion {| room := default "" jobId; event := event_; payload := payload_ |}
  = false ->
  completions (job_packets io jobId event_ payload_) = 0%nat.
Proof.
  intros H. unfold job_packets. destruct (_ && _); [|reflexivity].
  unfold completions. cbn. rewrite H. reflexivity.
Qed.

Lemma file_started_no_completion (i total : nat) (file : FileRef) :
  completions (file_started io jobId i total file) = 0%nat.
Proof.
  unfold file_started. destruct (_ && _); [|reflexivity].
  unfold completions, file_progress. cbn [List.filter].
  rewrite other_message_is_no_completion; [reflexivity|].
  unfold completion_messages. rewrite !elem_of_cons, elem_of_nil. cbn.
  intros [H|[H|[H|[H|[]]]]]; discriminate H.
Qed.

Lemma batchLoop_completions (todo : list FileRef) (i total : nat) (w : W)
    (entries : list BatchEntry) :
  outcome (batchLoop ext todo i total outputDir options io jobId [] w)
  = Returned entries ->
  completions (emitted (batchLoop ext todo i total outputDir options io jobId [] w))
  = length (successes entries).
Proof.
  revert i w entries. induction todo as [|file rest IH]; intros i w entries.
  - intros [= <-]. reflexivity.
  - rewrite batchLoop_cons. cbv zeta. unfold outcome at 1. cbn [snd].
    pose proof (dispatch_closes ext io jobId io_given jobId_given
                  (getFileTypeCategory (filename file)) file outputDir options w)
      as Hfile.
    set (d := dispatch ext (getFileTypeCategory (filename file)) file outputDir
                options io jobId w) in *.
    destruct (outcome (batchLoop ext rest (S i) total outputDir options io jobId []
                         (world_of d))) as [tail|e] eqn:Hrest; [|discriminate].
    intros [= <-]. unfold emitted at 1. cbn [fst snd].
    rewrite !completions_app, file_started_no_completion.
    rewrite (IH _ _ _ Hrest).
    destruct (outcome d) as [r|e].
    + destruct Hfile as (earlier & last & -> & Hlast & Hnone).
      rewrite completions_app, Hnone. unfold completions at 1. cbn [List.filter].
      rewrite Hlast. reflexivity.
    + rewrite Hfile. reflexivity.
Qed.

Lemma compressBatch_completions (submitted : list FileRef) (w : W)
    (entries : list BatchEntry) :
  outcome (batchLoop ext submitted 0 (length submitted) outputDir options io jobId [] w)
  = Returned entries ->
  completions (emitted (compressBatch ext submitted outputDir options io jobId w))
  = length (successes entries).
Proof.
  intros Hloop.
  rewrite (compressBatch_run ext outputDir options io jobId submitted w entries Hloop).
  cbv zeta.
  assert (Hstart : completions (batch_started io jobId (length submitted)) = 0%nat)
    by (apply job_packets_no_completion; reflexivity).
  assert (Hzip : completions (creating_archive io jobId) = 0%nat)
    by (apply job_packets_no_completion; reflexivity).
  assert (Hdone : completions (batch_completed io jobId) = 0%nat)
    by (apply job_packets_no_completion; reflexivity).
  pose proof (batchLoop_completions submitted 0 (length submitted) w entries Hloop)
    as Hfiles.
  destruct (_ && _); [destruct (archiver ext _ _ _).2|];
    unfold emitted at 1; cbn [fst snd];
    rewrite !completions_app, ?Hstart, ?Hzip, ?Hdone, Hfiles; lia.
Qed.

End CompletionCount.

(** X18. With a server handle and a job id, the compression of one file
    that returns publishes its completion packet, a progress of 100 with the
    message of its compressor, as its last packet and never before; one
    that throws, an unsupported type included, publishes none.  So the
    completion packets of a batch are as many as the files that succeeded,
    whether the batch returns its aggregate or fails on the archive. *)
Theorem completion_packets_count_the_successes {W : Type} (ext : External W)
    (submitted : list FileRef) (outputDir : string) (options : BatchOptions)
    (io : option Io) (jobId : option string) (w : W) :
  truthy_io io = true -> truthy_string jobId = true ->
  (forall fileType file w',
     let one := dispatch ext fileType file outputDir options io jobId w' in
     match outcome one with
     | Returned _ =>
         exists earlier last,
           emitted one = earlier ++ [last] /\
           is_completion last = true /\ completions earlier = 0%nat
     | Thrown _ => completions (emitted one) = 0%nat
     end) /\
  (exists entries,
     outcome (batchLoop ext submitted 0 (length submitted) outputDir options io
                jobId [] w) = Returned entries /\
     completions (emitted (compressBatch ext submitted outputDir options io jobId w))
     = length (successes entries)) /\
  (forall result,
     outcome (compressBatch ext submitted outputDir options io jobId w)
     = Returned result ->
     completions (emitted (compressBatch ext submitted outputDir options io jobId w))
     = successfulFiles result).
Proof.
  intros Hio Hjob. split; [|split].
  - intros fileType file w'. cbv zeta.
    apply (dispatch_closes ext io jobId Hio Hjob).
  - destruct (batchLoop_returns ext outputDir options io jobId submitted 0
                (length submitted) w) as (entries & Hloop & _).
    exists entries. split; [exact Hloop|].
    apply compressBatch_completions; assumption.
  - intros result Hret.
    destruct (compressBatch_returned ext outputDir options io jobId submitted w result
                Hret) as (entries & Hloop & _ & ->).
    rewrite (compressBatch_completions ext io jobId outputDir options Hio Hjob
               submitted w entries Hloop).
    cbn [successfulFiles aggregate]. symmetry. apply count_successes.
Qed.

(** X18 on a batch of an image, a text file and a video. *)
Lemma completion_packets_count_the_successes_on_three_files :
  completions
    (emitted (compressBatch calm [upload "a.png"; upload "notes.txt"; upload "c.mp4"]
                "temp" (default_options true) (Some socket_io) (Some "job-1") 0%nat))
  = 2%nat.
Proof.
  destruct (proj2 (completion_packets_count_the_successes calm
                     [upload "a.png"; upload "notes.txt"; upload "c.mp4"] "temp"
                     (default_options true) (Some socket_io) (Some "job-1") 0%nat
                     eq_refl eq_refl)) as [(entries & Hloop & Hcount) _].
  rewrite Hcount.
  assert (E : outcome (batchLoop calm [upload "a.png"; upload "notes.txt"; upload "c.mp4"]
                         0 3 "temp" (default_options true) (Some socket_io)
                         (Some "job-1") [] 0%nat)
              = Returned entries) by exact Hloop.
  vm_compute in E. injection E as <-. reflexivity.
Defined.

(** ** A refused upload before the error handler *)

Lemma starts_with_app_l (needle hay post : list ascii) :
  starts_with needle hay = true -> starts_with needle (hay ++ post) = true.
Proof.
  revert hay. induction needle as [|a needle IH]; intros hay; [reflexivity|].
  destruct hay as [|b hay]; cbn; [discriminate|].
  destruct (bool_decide (a = b)); cbn; [apply IH | discriminate].
Qed.

Lemma occurs_app_l (needle hay post : list ascii) :
  occurs needle hay = true -> occurs needle (hay ++ post) = true.
Proof.
  induction hay as [|c hay IH].
  - cbn [occurs]. rewrite orb_false_r. intros H.
    destruct needle; [destruct post; reflexivity | discriminate H].
  - cbn [occurs app]. intros H. apply orb_true_iff in H as [H|H].
    + pose proof (starts_with_app_l needle (c :: hay) post H) as H'.
      cbn [app] in H'. rewrite H'. reflexivity.
    + rewrite (IH H). apply orb_true_r.
Qed.

Lemma includes_within (before middle after phrase : string) :
  includes_string middle phrase = true ->
  includes_string (before +:+ middle +:+ after) phrase = true.
Proof.
  intros H. apply includes_prefixed. unfold includes_string in *.
  rewrite chars_app. apply occurs_app_l, H.
Qed.

(** X19. A file the upload filter refuses has no category, and its error
    names the extension, so the error handler answers 400, 422 or 429: 400
    with the message of the filter when that message holds no later phrase
    of the handler; 422 or 429, a failed compression or a rate limit,
    when the extension holds ['ffmpeg']. *)
Theorem refused_upload_is_answered_by_its_extension (originalname message : string) :
  fileFilter originalname = Thrown message ->
  getFileTypeCategory originalname = "unknown" /\
  reply_status (errorHandler (new_Error message)) ∈ [400; 422; 429] /\
  (includes_string message "ffmpeg" = false ->
   includes_string message "Input file contains unsupported image format" = false ->
   includes_string message "Too many requests" = false ->
   errorHandler (new_Error message)
   = {| reply_message := message; reply_status := 400 |}) /\
  (includes_string (extname originalname) "ffmpeg" = true ->
   reply_status (errorHandler (new_Error message)) ∈ [422; 429]).
Proof.
  unfold fileFilter. destruct (isFileTypeSupported originalname) eqn:Hsupp;
    [discriminate|].
  intros [= <-]. split.
  { destruct (decide (getFileTypeCategory originalname = "unknown")) as [E|E];
      [exact E|]. apply supported_known in E. congruence. }
  set (message := "Invalid file type: " +:+ extname originalname
                    +:+ ". Supported types: images, videos, audio, PDFs").
  assert (Hinvalid : includes_string message "Invalid file type" = true).
  { unfold includes_string, message. rewrite chars_app.
    exact (occurs_app_l (chars "Invalid file type") (chars "Invalid file type: ")
             _ eq_refl). }
  assert (Hne : (message =? "")%string = false) by reflexivity.
  unfold errorHandler, message_includes, code_is, new_Error. cbv zeta.
  cbn [e_message e_status e_code e_name truthy_string truthy_number default
       from_option id].
  rewrite Hne, Hinvalid, !bool_decide_eq_false_2 by discriminate.
  cbn [negb andb].
  split; [|split].
  - repeat match goal with
           | |- context [if ?c then _ else _] => destruct c
           end;
      cbn [reply_status]; rewrite !elem_of_cons; tauto.
  - intros -> -> ->. reflexivity.
  - intros Hext. subst message.
    rewrite (includes_within "Invalid file type: " (extname originalname)
               ". Supported types: images, videos, audio, PDFs" "ffmpeg" Hext).
    repeat match goal with
           | |- context [if ?c then _ else _] => destruct c
           end;
      cbn [reply_status]; rewrite !elem_of_cons; tauto.
Qed.

(** X19 on [clip.ffmpeg]. *)
Lemma refused_upload_is_answered_by_its_extension_on_clip_ffmpeg :
  reply_status
    (errorHandler
       (new_Error
          "Invalid file type: .ffmpeg. Supported types: images, videos, audio, PDFs"))
    ∈ [422; 429].
Proof.
  exact (proj2 (proj2 (proj2
           (refused_upload_is_answered_by_its_extension "clip.ffmpeg"
              "Invalid file type: .ffmpeg. Supported types: images, videos, audio, PDFs"
              eq_refl))) eq_refl).
Defined.
